(** * libloot: the dependency licence and notice script, [docs/scripts/licenses.py]

    A shallow embedding of the script's decision logic: the traversal of the
    [cargo metadata] package graph, the reduction of a licence expression to a
    list of identifiers, the extraction of copyright notices and the loop of
    the entry point that puts them together.

    Text.  A Python [str] is a [string], one [ascii] per character, so the
    model covers text over the code points U+0000 to U+00FF.  That range
    contains every character the script names, the copyright sign U+00A9
    included, and on it [lower], [strip] and the class [\d] are the functions
    written below. *)

From Stdlib Require Import Ascii.
From stdpp Require Import gmap strings list sorting pretty.

(** ** Python's string operations *)

Module Str.

(** [needle in hay] at the head of [hay]. *)
Fixpoint startswith (needle hay : string) : bool :=
  match needle, hay with
  | "", _ => true
  | String a needle', String b hay' =>
      if decide (a = b) then startswith needle' hay' else false
  | String _ _, "" => false
  end.

(** [needle in hay]. *)
Fixpoint contains (needle hay : string) : bool :=
  startswith needle hay ||
  match hay with
  | "" => false
  | String _ hay' => contains needle hay'
  end.

(** [str.isspace] on one character. *)
Definition isspace (c : ascii) : bool :=
  let n := N_of_ascii c in
  ((9 <=? n) && (n <=? 13) || (28 <=? n) && (n <=? 32)
   || (n =? 133) || (n =? 160))%N.

Fixpoint lstrip (s : string) : string :=
  match s with
  | "" => ""
  | String c s' => if isspace c then lstrip s' else s
  end.

Definition rstrip (s : string) : string :=
  String.rev (lstrip (String.rev s)).

(** [s.strip()]. *)
Definition strip (s : string) : string := rstrip (lstrip s).

(** [str.lower] on one character: the letters A to Z, and the capital
    letters of U+00C0 to U+00DE less the multiplication sign U+00D7. *)
Definition lower_char (c : ascii) : ascii :=
  let n := N_of_ascii c in
  if ((65 <=? n) && (n <=? 90)
      || (192 <=? n) && (n <=? 222) && negb (n =? 215))%N
  then ascii_of_N (n + 32) else c.

(** [s.lower()]. *)
Fixpoint lower (s : string) : string :=
  match s with
  | "" => ""
  | String c s' => String (lower_char c) (lower s')
  end.

(** The pieces of [s.split(sep)] for a separator that is not empty, as
    both separators of the script are.  [skip] counts the characters of a
    separator still to pass over, [cur] holds the current piece reversed. *)
Fixpoint split_go (sep : string) (skip : nat) (cur s : string) : list string :=
  match s with
  | "" => [String.rev cur]
  | String c s' =>
      match skip with
      | S k => split_go sep k cur s'
      | 0 =>
          if startswith sep s
          then String.rev cur :: split_go sep (String.length sep - 1) "" s'
          else split_go sep 0 (String c cur) s'
      end
  end.

Definition split (sep s : string) : list string := split_go sep 0 "" s.

(** [sep.join(l)]. *)
Fixpoint join (sep : string) (l : list string) : string :=
  match l with
  | [] => ""
  | [x] => x
  | x :: l' => x +:+ sep +:+ join sep l'
  end.

(** [c * n] for a one-character string. *)
Fixpoint repeat (c : ascii) (n : nat) : string :=
  match n with
  | 0 => ""
  | S n' => String c (repeat c n')
  end.

Definition isdigit (c : ascii) : bool :=
  let n := N_of_ascii c in ((48 <=? n) && (n <=? 57))%N.

(** Does [s] start with [n] decimal digits? *)
Fixpoint digits_at (n : nat) (s : string) : bool :=
  match n with
  | 0 => true
  | S n' =>
      match s with
      | "" => false
      | String c s' => isdigit c && digits_at n' s'
      end
  end.

End Str.

(** ** Values, dictionaries and the outcome of a run *)

(** What the fields of a dependency record hold: a string, or [None] where the
    metadata has JSON [null]. *)
Inductive value :=
| VNone
| VStr (s : string).

Global Instance value_eq_dec : EqDecision value.
Proof. solve_decision. Defined.

(** [str(v)], as an f-string formats it. *)
Definition str (v : value) : string :=
  match v with
  | VNone => "None"
  | VStr s => s
  end.

(** A dependency record is a Python dict with string keys. *)
Abbreviation dict := (gmap string value).

Inductive exn :=
| KeyError (key : string)
| AttributeError (attr : string)
| TypeError
| IndexError
| FileNotFoundError (path : string)
| URLError (url : string).

Inductive event :=
| Stdout (line : string)
| Stderr (line : string)
| CallReadNotices (dependency : dict)
| UrlOpen (url : string)
| WriteFile (path content : string).

(** How a computation ends: with a value, by [exit(status)], or by an
    exception nobody catches. *)
Inductive result (A : Type) :=
| Ret (a : A)
| Exit (status : Z)
| Raise (e : exn).
Arguments Ret {A} a.
Arguments Exit {A} status.
Arguments Raise {A} e.

(** A computation: the events it performed, in order, and how it ended. *)
Definition M (A : Type) : Type := list event * result A.

Definition ret {A} (a : A) : M A := ([], Ret a).
Definition exit {A} (status : Z) : M A := ([], Exit status).
Definition raise {A} (e : exn) : M A := ([], Raise e).
Definition emit (e : event) : M unit := ([e], Ret tt).

Definition bind {A B} (m : M A) (f : A → M B) : M B :=
  match m with
  | (t, Ret a) => let '(t', r) := f a in (t ++ t', r)
  | (t, Exit status) => (t, Exit status)
  | (t, Raise e) => (t, Raise e)
  end.

Global Instance M_ret : MRet M := @ret.
Global Instance M_bind : MBind M := λ A B f m, bind m f.

Definition trace {A} (m : M A) : list event := m.1.
Definition outcome {A} (m : M A) : result A := m.2.

(** The exit status of the process: an uncaught exception ends it with 1. *)
Definition exit_status {A} (r : result A) : Z :=
  match r with
  | Ret _ => 0
  | Exit status => status
  | Raise _ => 1
  end.

(** [d[key]]. *)
Definition getitem (d : dict) (key : string) : M value :=
  match d !! key with
  | Some v => ret v
  | None => raise (KeyError key)
  end.

(** ** The tables of the script *)

Definition SKIPPABLE_NOTICE_LICENSES : list string :=
  ["CC0-1.0"; "Unlicense"; "Zlib"; "MPL-2.0"].

Definition SKIPPABLE_LICENSE_FILES : list string :=
  SKIPPABLE_NOTICE_LICENSES ++ ["GPL-3.0"; "GPL-3.0-only"; "GPL-3.0-or-later"].

Definition SKIPPABLE_CRATES : list string := ["libloot"; "libloot-ffi-errors"].

Definition NO_NOTICES_WHITELIST : list (string * string) :=
  [ ("allocator-api2", "0.2.21");
    ("cxx", "1.0.161");
    ("cxxbridge-macro", "1.0.161");
    ("delegate", "0.13.4");
    ("link-cplusplus", "1.0.10");
    ("once_cell", "1.21.3");
    ("option-ext", "0.2.0");
    ("pelite-macros", "0.1.1");
    ("pest", "2.8.0");
    ("proc-macro2", "1.0.101");
    ("quote", "1.0.40");
    ("rustc-hash", "2.1.1");
    ("rustversion", "1.0.20");
    ("serde", "1.0.219");
    ("serde_derive", "1.0.219");
    ("syn", "2.0.106");
    ("thiserror", "2.0.12");
    ("thiserror-impl", "2.0.12") ].

(** [re.search(YEAR_REGEX, line)] for the pattern [\d{4}]: four decimal digits
    in a row somewhere in the line. *)
Fixpoint YEAR_REGEX (line : string) : bool :=
  Str.digits_at 4 line ||
  match line with
  | "" => false
  | String _ line' => YEAR_REGEX line'
  end.

(** ** parse_licenses *)

(** [all(license in SKIPPABLE_NOTICE_LICENSES for license in licenses)]. *)
Definition all_skippable (licenses : list string) : bool :=
  forallb (λ license, bool_decide (license ∈ SKIPPABLE_NOTICE_LICENSES)) licenses.

(** [list(map(str.strip, s.split(sep)))]. *)
Definition split_strip (sep s : string) : list string :=
  Str.strip <$> Str.split sep s.

(** The first loop of [parse_licenses]: the identifiers of the first
    alternative that needs no notice, if there is one. *)
Fixpoint pick_skippable (licenses_any : list string) : option (list string) :=
  match licenses_any with
  | [] => None
  | license :: rest =>
      let licenses_all := split_strip "AND" license in
      if all_skippable licenses_all then Some licenses_all
      else pick_skippable rest
  end.

(** The expression [parse_licenses] works on: three spellings are rewritten,
    every other one is taken as it is. *)
Definition select_expression (license : value) : value :=
  if decide (license = VStr "MIT/Apache-2.0") then VStr "MIT OR Apache-2.0"
  else if decide (license = VStr "(Apache-2.0 OR MIT) AND BSD-3-Clause")
  then VStr "MIT AND BSD-3-Clause"
  else if decide (license = VStr "(MIT OR Apache-2.0) AND Unicode-3.0")
  then VStr "MIT AND Unicode-3.0"
  else license.

Definition parse_licenses (dependency : dict) : M (list string) :=
  match dependency !! "license" with
  | None =>
      name ← getitem dependency "name";
      emit (Stderr ("Found dependency with no license: " +:+ str name));;
      exit 1
  | Some license =>
      match select_expression license with
      | VNone => raise (AttributeError "split")
      | VStr expression =>
          let licenses_any := split_strip "OR" expression in
          match pick_skippable licenses_any with
          | Some licenses_all => ret licenses_all
          | None =>
              if bool_decide ("MIT" ∈ licenses_any) then ret ["MIT"]
              else
                match licenses_any with
                | first :: _ => ret (split_strip "AND" first)
                | [] => raise IndexError
                end
          end
      end
  end.

(** ** The package graph of [cargo metadata] *)

(** One entry of a package's [dependencies] array.  [kind] is [null] for an
    ordinary dependency and ["dev"] or ["build"] otherwise; [target] is [null]
    or the platform the dependency is limited to. *)
Module Dependency.
Record t := mk {
  name : string;
  kind : value;
  target : value
}.
End Dependency.

(** One entry of the [packages] array, with the fields the script reads. *)
Module Package.
Record t := mk {
  name : string;
  version : string;
  license : value;
  manifest_path : string;
  dependencies : list Dependency.t
}.
End Package.

(** The platform of the edges the traversal leaves out: the text
    [cfg(target_os = "redox")], written with the quotation mark as a
    character. *)
Definition REDOX_TARGET : string :=
  "cfg(target_os = " +:+ String "034"%char ("redox" +:+ String "034"%char ")").

(** The test of the [continue] in [recurse_dependencies]. *)
Definition skipped (dependency : Dependency.t) (dependency_names : gset string) : bool :=
  bool_decide (Dependency.name dependency ∈ dependency_names)
  || bool_decide (Dependency.kind dependency ∈ [VStr "dev"; VStr "build"])
  || bool_decide (Dependency.target dependency = VStr REDOX_TARGET).

(** [for package in packages: if package['name'] == name: recurse(package)],
    the set of names threaded through the calls. *)
Fixpoint for_packages (recurse : Package.t → gset string → option (gset string))
    (name : string) (packages : list Package.t) (dependency_names : gset string)
    : option (gset string) :=
  match packages with
  | [] => Some dependency_names
  | package :: rest =>
      if decide (Package.name package = name)
      then dependency_names' ← recurse package dependency_names;
           for_packages recurse name rest dependency_names'
      else for_packages recurse name rest dependency_names
  end.

(** The loop over the dependencies of the current package. *)
Fixpoint for_dependencies (recurse : Package.t → gset string → option (gset string))
    (packages : list Package.t) (dependencies : list Dependency.t)
    (dependency_names : gset string) : option (gset string) :=
  match dependencies with
  | [] => Some dependency_names
  | dependency :: rest =>
      if skipped dependency dependency_names
      then for_dependencies recurse packages rest dependency_names
      else
        let name := Dependency.name dependency in
        dependency_names' ←
          for_packages recurse name packages ({[name]} ∪ dependency_names);
        for_dependencies recurse packages rest dependency_names'
  end.

(** [recurse_dependencies], with the set it updates in place passed in and
    returned.  [fuel] bounds the depth of the recursion; [None] is the answer
    of a run that had too little of it. *)
Fixpoint recurse_dependencies (fuel : nat) (packages : list Package.t)
    (current_package : Package.t) (dependency_names : gset string)
    : option (gset string) :=
  match fuel with
  | 0 => None
  | S fuel' =>
      for_dependencies (recurse_dependencies fuel' packages) packages
        (Package.dependencies current_package) dependency_names
  end.

(** Every name a dependency edge of the graph mentions. *)
Definition edge_names (packages : list Package.t) : gset string :=
  list_to_set (Dependency.name <$> (packages ≫= Package.dependencies)).

(** Each nested call adds a name that was not in the set, so one more than the
    number of names bounds the depth. *)
Definition enough_fuel (packages : list Package.t) : nat :=
  S (size (edge_names packages)).

(** The first loop of [get_package_dependencies]. *)
Definition collect_names (fuel : nat) (packages : list Package.t)
    (package_name : string) : option (gset string) :=
  for_packages (recurse_dependencies fuel packages) package_name packages ∅.

Definition dependency_names (packages : list Package.t) (package_name : string)
    : gset string :=
  default ∅ (collect_names (enough_fuel packages) packages package_name).

(** The record [get_package_dependencies] builds for a package. *)
Definition record (package : Package.t) : dict :=
  {[ "name" := VStr (Package.name package);
     "version" := VStr (Package.version package);
     "license" := Package.license package;
     "manifest_path" := VStr (Package.manifest_path package) ]}.

(** [get_package_dependencies] from the parsed output of [cargo metadata] on:
    [packages] is [json_output['packages']]. *)
Definition get_package_dependencies (packages : list Package.t)
    (package_name : string) : list dict :=
  record <$>
    filter (λ package, Package.name package ∈ dependency_names packages package_name)
      packages.

(** ** Files and the network *)

Definition LF : ascii := "010"%char.
Definition CR : ascii := "013"%char.
Definition NL : string := String LF "".

(** The copyright sign U+00A9 as a one-character string. *)
Definition COPYRIGHT_SIGN : string := String "169"%char "".

(** The lines that iterating over a file opened in text mode yields: each
    ends at a line feed, a carriage return or the pair of them, which all
    read as one line feed; the end of the file closes a last line that has no
    terminator.  [after_cr] says that the character before was a carriage
    return, [cur] holds the current line reversed. *)
Fixpoint readlines_go (after_cr : bool) (cur content : string) : list string :=
  match content with
  | "" => match cur with "" => [] | _ => [String.rev cur] end
  | String c content' =>
      if decide (c = LF) then
        if after_cr then readlines_go false cur content'
        else String.rev (String LF cur) :: readlines_go false "" content'
      else if decide (c = CR) then
        String.rev (String LF cur) :: readlines_go true "" content'
      else readlines_go false (String c cur) content'
  end.

Definition readlines (content : string) : list string :=
  readlines_go false "" content.

(** What [os.scandir] finds: a name, and a regular file with its text, a
    directory with its entries, or something that is neither. *)
Inductive node :=
| File (content : string)
| Dir (entries : list (string * node))
| Other.

Abbreviation DirEntry := (string * node)%type.

(** The answer to [urlopen]. *)
Record response := {
  status : Z;
  reason : string;
  read : string
}.

(** What the run finds outside the script: the directories, the network, the
    clock, and the order in which a set hands out its elements. *)
Record world := {
  scandir : string → option (list DirEntry);
  urlopen : string → exn + response;
  now : string;
  set_order : gset string → list string
}.

(** [posixpath.dirname]. *)
Module Path.

(** [p[:p.rfind('/') + 1]]. *)
Fixpoint head (p : string) : string :=
  match p with
  | "" => ""
  | String c p' => if Str.contains "/" p then String c (head p') else ""
  end.

Fixpoint all_sep (s : string) : bool :=
  match s with
  | "" => true
  | String c s' => bool_decide (c = "/"%char) && all_sep s'
  end.

Fixpoint lstrip_sep (s : string) : string :=
  match s with
  | "" => ""
  | String c s' => if decide (c = "/"%char) then lstrip_sep s' else s
  end.

Definition rstrip_sep (s : string) : string :=
  String.rev (lstrip_sep (String.rev s)).

Definition dirname (p : string) : string :=
  let h := head p in
  if all_sep h then h else rstrip_sep h.

(** [posixpath.join(a, b)]. *)
Definition join (a b : string) : string :=
  if Str.startswith "/" b then b
  else if bool_decide (a = "") || Str.startswith "/" (String.rev a) then a +:+ b
  else a +:+ "/" +:+ b.

End Path.

(** ** read_notices *)

(** The test of [read_notices_from_file] on one line. *)
Definition is_notice_line (line : string) : bool :=
  let lowercase_line := Str.lower line in
  Str.contains "copyright" lowercase_line
  && (Str.contains "(c)" lowercase_line
      || Str.contains COPYRIGHT_SIGN line
      || YEAR_REGEX line).

(** The loop of [read_notices_from_file] over the lines of the file. *)
Fixpoint scan_lines (lines : list string) : list string :=
  match lines with
  | [] => []
  | line :: rest =>
      if is_notice_line line then Str.strip line :: scan_lines rest
      else scan_lines rest
  end.

Definition read_notices_from_file (content : string) : list string :=
  scan_lines (readlines content).

(** The inner loop of [read_notices]: the regular files directly inside a
    directory. *)
Fixpoint scan_directory (entries : list DirEntry) : list string :=
  match entries with
  | [] => []
  | (_, File content) :: rest => read_notices_from_file content ++ scan_directory rest
  | _ :: rest => scan_directory rest
  end.

Definition license_filename (name : string) : bool :=
  let lowercase_filename := Str.lower name in
  Str.contains "license" lowercase_filename || Str.contains "copying" lowercase_filename.

(** The outer loop of [read_notices] over the entries of the crate. *)
Fixpoint scan_crate (entries : list DirEntry) : list string :=
  match entries with
  | [] => []
  | (name, n) :: rest =>
      (if license_filename name then
         match n with
         | File content => read_notices_from_file content
         | Dir inner => scan_directory inner
         | Other => []
         end
       else []) ++ scan_crate rest
  end.

(** [list(set(notices))] followed by [sort()]: the order in which the set
    hands out its elements does not matter to the sorted list. *)
Definition sorted_set (notices : list string) : list string :=
  merge_sort String.le (remove_dups notices).

Definition read_notices (w : world) (dependency : dict) : M (list string) :=
  emit (CallReadNotices dependency);;
  name ← getitem dependency "name";
  if decide (name = VStr "hashlink") then
    mret ["Copyright (c) 2015 The Rust Project Developers"]
  else if decide (name = VStr "libloadorder") then
    mret ["Copyright (C) 2017 Oliver Hamlet"]
  else if decide (name = VStr "esplugin") then
    mret ["Copyright (C) 2017 Oliver Hamlet"]
  else
    manifest_path ← getitem dependency "manifest_path";
    match manifest_path with
    | VNone => raise TypeError
    | VStr manifest_path =>
        let crate_path := Path.dirname manifest_path in
        match scandir w crate_path with
        | None => raise (FileNotFoundError crate_path)
        | Some entries => mret (sorted_set (scan_crate entries))
        end
    end.

(** [repr] of a [bytes] object, as an f-string formats the body of a
    response. *)
Module Bytes.

Definition hex_digit (n : N) : ascii :=
  if (n <? 10)%N then ascii_of_N (48 + n) else ascii_of_N (87 + n).

Definition escape (quote c : ascii) : string :=
  let n := N_of_ascii c in
  if bool_decide (c = quote) || bool_decide (c = "092"%char)
  then String "092"%char (String c "")
  else if decide (c = "009"%char) then String "092"%char "t"
  else if decide (c = LF) then String "092"%char "n"
  else if decide (c = CR) then String "092"%char "r"
  else if ((n <? 32) || (127 <=? n))%N
  then String "092"%char
         (String "x"%char
            (String (hex_digit (n `div` 16)%N) (String (hex_digit (n `mod` 16)%N) "")))
  else String c "".

Fixpoint escape_all (quote : ascii) (b : string) : string :=
  match b with
  | "" => ""
  | String c b' => escape quote c +:+ escape_all quote b'
  end.

Definition repr (b : string) : string :=
  let quote :=
    if Str.contains "'" b && negb (Str.contains (String "034"%char "") b)
    then "034"%char else "'"%char in
  String "b"%char (String quote (escape_all quote b +:+ String quote "")).

End Bytes.

(** ** download_licenses *)

(** The first loop: the identifiers of all dependencies in one set. *)
Fixpoint collect_licenses (dependencies : list dict) (unique_licenses : gset string)
    : M (gset string) :=
  match dependencies with
  | [] => mret unique_licenses
  | dependency :: rest =>
      licenses ← parse_licenses dependency;
      collect_licenses rest (unique_licenses ∪ list_to_set licenses)
  end.

(** The three names of the GPL share one text. *)
Definition consolidate (unique_licenses : gset string) : gset string :=
  if decide ("GPL-3.0-or-later" ∈ unique_licenses)
  then unique_licenses ∖ {["GPL-3.0"]} ∖ {["GPL-3.0-only"]}
  else unique_licenses.

Definition license_url (license : string) : string :=
  "https://raw.githubusercontent.com/spdx/license-list-data/refs/heads/main/text/"
  +:+ license +:+ ".txt".

(** The body of the second loop. *)
Definition download_license (w : world) (output_directory license : string) : M unit :=
  if bool_decide (license ∈ SKIPPABLE_LICENSE_FILES) then mret tt
  else
    let url := license_url license in
    emit (Stdout ("Downloading " +:+ license +:+ " from " +:+ url +:+ "..."));;
    emit (UrlOpen url);;
    match urlopen w url with
    | inl e => raise e
    | inr r =>
        if decide (status r ≠ 200%Z) then
          emit (Stderr ("Error fetching license: " +:+ pretty (status r) +:+ " "
                        +:+ reason r +:+ ", " +:+ Bytes.repr (read r)));;
          exit 1
        else emit (WriteFile (Path.join output_directory license) (read r))
    end.

Fixpoint for_each {A} (body : A → M unit) (l : list A) : M unit :=
  match l with
  | [] => mret tt
  | x :: rest => body x;; for_each body rest
  end.

Definition download_licenses (w : world) (dependencies : list dict)
    (output_directory : string) : M unit :=
  unique_licenses ← collect_licenses dependencies ∅;
  for_each (download_license w output_directory)
    (set_order w (consolidate unique_licenses)).

(** ** The entry point *)

Definition get_url (name version : value) : string :=
  "https://crates.io/crates/" +:+ str name +:+ "/" +:+ str version.

Definition heading : string := "Dependency Copyright Notices".

(** The text [notices_rst] starts from. *)
Definition header (w : world) : string :=
  ".. This file was generated by scripts/licenses.py at " +:+ now w +:+ "." +:+ NL +:+ NL
  +:+ heading +:+ NL +:+ Str.repeat "="%char (String.length heading) +:+ NL +:+ NL.

(** The section of one dependency. *)
Definition section_rst (name version : value) (notices : list string) : string :=
  let link_rst :=
    "`" +:+ str name +:+ " v" +:+ str version +:+ " <" +:+ get_url name version +:+ ">`_" in
  let underline_rst := Str.repeat "-"%char (String.length link_rst) in
  let dep_notices_rst := Str.join (NL +:+ "    ") notices in
  link_rst +:+ NL +:+ underline_rst +:+ NL +:+ NL +:+ "::" +:+ NL +:+ NL
  +:+ "    " +:+ dep_notices_rst +:+ NL +:+ NL.

(** The body of the loop of the entry point: from the text so far to the text
    after this dependency. *)
Definition add_dependency (w : world) (dependency : dict) (notices_rst : string)
    : M string :=
  name ← getitem dependency "name";
  if bool_decide (name ∈ VStr <$> SKIPPABLE_CRATES) then mret notices_rst
  else
    licenses ← parse_licenses dependency;
    if all_skippable licenses then
      license ← getitem dependency "license";
      emit (Stdout ("Skipping " +:+ str name +:+ " because its license allows it: "
                    +:+ str license));;
      mret notices_rst
    else
      notices ← read_notices w dependency;
      match notices with
      | [] =>
          version ← getitem dependency "version";
          if bool_decide ((name, version) ∉
               (λ nv, (VStr nv.1, VStr nv.2)) <$> NO_NOTICES_WHITELIST)
          then
            emit (Stderr ("Found dependency with no notices: " +:+ str name
                          +:+ " v" +:+ str version));;
            exit 1
          else
            emit (Stdout ("Skipping dependency with no notices: " +:+ str name));;
            mret notices_rst
      | _ =>
          version ← getitem dependency "version";
          mret (notices_rst +:+ section_rst name version notices)
      end.

Fixpoint add_dependencies (w : world) (dependencies : list dict) (notices_rst : string)
    : M string :=
  match dependencies with
  | [] => mret notices_rst
  | dependency :: rest =>
      notices_rst' ← add_dependency w dependency notices_rst;
      add_dependencies w rest notices_rst'
  end.

Definition target_package_name : string := "libloot-cpp".
Definition output_dir : string := Path.join "api" "copyright".
Definition notices_rst_path : string := Path.join output_dir "dependency-notices.rst".

(** The run from the dependencies on. *)
Definition run (w : world) (package_dependencies : list dict) : M unit :=
  download_licenses w package_dependencies (Path.join output_dir "licenses");;
  notices_rst ← add_dependencies w package_dependencies (header w);
  emit (WriteFile notices_rst_path notices_rst).

(** The entry point, from the parsed answer of [cargo metadata] on. *)
Definition main (w : world) (packages : list Package.t) : M unit :=
  run w (get_package_dependencies packages target_package_name).


(** An edge the traversal follows: neither a [dev] nor a [build] dependency,
    and not limited to the platform left out. *)
Definition runtime_edge (dependency : Dependency.t) : bool :=
  negb (bool_decide (Dependency.kind dependency ∈ [VStr "dev"; VStr "build"]))
  && negb (bool_decide (Dependency.target dependency = VStr REDOX_TARGET)).

(** [depends_on packages p n]: from package [p] a chain of one or more
    followed edges, through packages of the graph, ends in an edge to the
    name [n]. *)
Inductive depends_on (packages : list Package.t) : Package.t → string → Prop :=
| depends_direct p e :
    e ∈ Package.dependencies p → runtime_edge e = true →
    depends_on packages p (Dependency.name e)
| depends_step p e q n :
    e ∈ Package.dependencies p → runtime_edge e = true →
    q ∈ packages → Package.name q = Dependency.name e →
    depends_on packages q n →
    depends_on packages p n.

(** Every followed edge of [package] ends in [names]. *)
Definition covers (package : Package.t) (names : gset string) : Prop :=
  ∀ e, e ∈ Package.dependencies package → runtime_edge e = true →
       Dependency.name e ∈ names.

(** Every package called [n] has all its followed edges in [names]. *)
Definition closed (packages : list Package.t) (n : string) (names : gset string) : Prop :=
  ∀ q, q ∈ packages → Package.name q = n → covers q names.

(** What a part of the traversal that started from the packages [sources]
    with the set [names] has done when it returns [names']. *)
Record visit (packages : list Package.t) (sources : Package.t → Prop)
    (names names' : gset string) : Prop := {
  visit_mono : names ⊆ names';
  visit_closed : ∀ n, n ∈ names' → n ∉ names → closed packages n names';
  visit_sound : ∀ n, n ∈ names' → n ∉ names →
                     ∃ p, sources p ∧ depends_on packages p n
}.

Definition recurse_ok (packages : list Package.t)
    (recurse : Package.t → gset string → option (gset string)) (k : nat) : Prop :=
  ∀ p names, p ∈ packages → size (edge_names packages ∖ names) < k →
    ∃ names', recurse p names = Some names'
              ∧ visit packages (eq p) names names' ∧ covers p names'.

(** The packages [recurse_dependencies] is called on, from the packages
    called [package_name]: the start of the traversal, and every package a
    followed edge of a traversed package names. *)
Inductive traversed (packages : list Package.t) (package_name : string)
    : Package.t → Prop :=
| traversed_root p :
    p ∈ packages → Package.name p = package_name →
    traversed packages package_name p
| traversed_step p e q :
    traversed packages package_name p →
    e ∈ Package.dependencies p → runtime_edge e = true →
    q ∈ packages → Package.name q = Dependency.name e →
    traversed packages package_name q.

(** Does some package of the graph carry the name of this edge? *)
Definition resolved_edge (packages : list Package.t) (e : Dependency.t) : bool :=
  bool_decide (Dependency.name e ∈ Package.name <$> packages).

(** The graph without the edges that name no package of it. *)
Definition prune_package (packages : list Package.t) (p : Package.t) : Package.t :=
  Package.mk (Package.name p) (Package.version p) (Package.license p)
    (Package.manifest_path p)
    (filter (λ e, resolved_edge packages e = true) (Package.dependencies p)).

Definition prune (packages : list Package.t) : list Package.t :=
  prune_package packages <$> packages.

(** ** Examples *)

Module Example.

Definition normal (name : string) : Dependency.t := Dependency.mk name VNone VNone.
Definition dev (name : string) : Dependency.t := Dependency.mk name (VStr "dev") VNone.

Definition package (name : string) (dependencies : list Dependency.t) : Package.t :=
  Package.mk name "1.0.0" (VStr "MIT") ("/src/" +:+ name +:+ "/Cargo.toml") dependencies.

Definition A : Package.t := package "A" [normal "B"; dev "C"].
Definition B : Package.t := package "B" [normal "D"].
Definition C : Package.t := package "C" [].
Definition D : Package.t := package "D" [].

(** Root [A] depends on [B] and, for development only, on [C]; [B] depends
    on [D]. *)
Definition graph : list Package.t := [A; B; C; D].

End Example.

(** ** The traversal visits what the followed edges reach *)

Section Traversal.
Variable packages : list Package.t.

Lemma skipped_spec e names :
  skipped e names = bool_decide (Dependency.name e ∈ names) || negb (runtime_edge e).
Proof.
  unfold skipped, runtime_edge.
  repeat case_bool_decide; reflexivity.
Qed.

Lemma covers_mono p names names' :
  covers p names → names ⊆ names' → covers p names'.
Proof. intros Hc Hsub e He Hr. apply Hsub, Hc; assumption. Qed.

Lemma closed_mono n names names' :
  closed packages n names → names ⊆ names' → closed packages n names'.
Proof. intros Hc Hsub q Hq Hn. eapply covers_mono; eauto. Qed.

Lemma edge_name_known p e :
  p ∈ packages → e ∈ Package.dependencies p →
  Dependency.name e ∈ edge_names packages.
Proof.
  intros Hp He. unfold edge_names.
  apply elem_of_list_to_set, list_elem_of_fmap.
  exists e. split; [reflexivity|].
  apply list_elem_of_bind. exists p. split; assumption.
Qed.

Lemma unvisited_shrinks n names :
  n ∈ edge_names packages → n ∉ names →
  size (edge_names packages ∖ ({[n]} ∪ names)) < size (edge_names packages ∖ names).
Proof.
  intros HU Hn. apply subset_size. set_solver.
Qed.

Lemma unvisited_le names names' :
  names ⊆ names' →
  size (edge_names packages ∖ names') ≤ size (edge_names packages ∖ names).
Proof. intros Hsub. apply subseteq_size. set_solver. Qed.

Lemma for_packages_ok recurse k name :
  recurse_ok packages recurse k →
  ∀ ps names,
    ps ⊆ packages → size (edge_names packages ∖ names) < k →
    ∃ names', for_packages recurse name ps names = Some names'
      ∧ visit packages (λ q, q ∈ ps ∧ Package.name q = name) names names'
      ∧ (∀ q, q ∈ ps → Package.name q = name → covers q names').
Proof.
  intros Hrec ps. induction ps as [|q ps IH]; intros names Hps Hk.
  - exists names. split; [reflexivity|]. split.
    + split; [set_solver| |]; intros n Hin Hnot; contradiction.
    + intros q Hq. inversion Hq.
  - assert (Hq : q ∈ packages) by (apply Hps; left).
    assert (Hps' : ps ⊆ packages) by (intros x Hx; apply Hps; right; exact Hx).
    simpl. destruct (decide (Package.name q = name)) as [Hname|Hname].
    + destruct (Hrec q names Hq Hk) as (names1 & -> & [Hm1 Hc1 Hs1] & Hcov1).
      simpl.
      destruct (IH names1 Hps') as (names2 & -> & [Hm2 Hc2 Hs2] & Hcov2).
      { pose proof (unvisited_le _ _ Hm1). lia. }
      exists names2. split; [reflexivity|]. split; [split|].
      * set_solver.
      * intros n Hin Hnot. destruct (decide (n ∈ names1)) as [Hn1|Hn1].
        -- eapply closed_mono; eauto.
        -- eauto.
      * intros n Hin Hnot. destruct (decide (n ∈ names1)) as [Hn1|Hn1].
        -- destruct (Hs1 n Hn1 Hnot) as (p & <- & Hd).
           exists q. split; [split; [left|assumption]|assumption].
        -- destruct (Hs2 n Hin Hn1) as (p & [Hp Hpn] & Hd).
           exists p. split; [split; [right; assumption|assumption]|assumption].
      * intros q' Hq' Hn'. apply elem_of_cons in Hq' as [->|Hq'].
        -- eapply covers_mono; eauto.
        -- eauto.
    + destruct (IH names Hps' Hk) as (names2 & -> & [Hm2 Hc2 Hs2] & Hcov2).
      exists names2. split; [reflexivity|]. split; [split|].
      * assumption.
      * assumption.
      * intros n Hin Hnot. destruct (Hs2 n Hin Hnot) as (p & [Hp Hpn] & Hd).
        exists p. split; [split; [right; assumption|assumption]|assumption].
      * intros q' Hq' Hn'. apply elem_of_cons in Hq' as [->|Hq'].
        -- contradiction.
        -- eauto.
Qed.

Lemma for_dependencies_ok recurse k p :
  recurse_ok packages recurse k → p ∈ packages →
  ∀ ds names,
    ds ⊆ Package.dependencies p → size (edge_names packages ∖ names) ≤ k →
    ∃ names', for_dependencies recurse packages ds names = Some names'
      ∧ visit packages (eq p) names names'
      ∧ (∀ e, e ∈ ds → runtime_edge e = true → Dependency.name e ∈ names').
Proof.
  intros Hrec Hp ds. induction ds as [|e ds IH]; intros names Hds Hk.
  - exists names. split; [reflexivity|]. split.
    + split; [set_solver| |]; intros n Hin Hnot; contradiction.
    + intros e He. inversion He.
  - assert (He : e ∈ Package.dependencies p) by (apply Hds; left).
    assert (Hds' : ds ⊆ Package.dependencies p)
      by (intros x Hx; apply Hds; right; exact Hx).
    simpl. rewrite skipped_spec.
    destruct (bool_decide (Dependency.name e ∈ names)) eqn:Hvisited; simpl.
    { apply bool_decide_eq_true in Hvisited.
      destruct (IH names Hds' Hk) as (names' & -> & Hv & Hcov).
      exists names'. split; [reflexivity|]. split; [assumption|].
      intros e' He' Hr. apply elem_of_cons in He' as [->|He'].
      - apply (visit_mono _ _ _ _ Hv), Hvisited.
      - eauto. }
    apply bool_decide_eq_false in Hvisited.
    destruct (runtime_edge e) eqn:Hrt; simpl.
    2:{ destruct (IH names Hds' Hk) as (names' & -> & Hv & Hcov).
        exists names'. split; [reflexivity|]. split; [assumption|].
        intros e' He' Hr. apply elem_of_cons in He' as [->|He'].
        - congruence.
        - eauto. }
    set (n := Dependency.name e) in *.
    assert (HU : n ∈ edge_names packages) by (eapply edge_name_known; eauto).
    destruct (for_packages_ok recurse k n Hrec packages ({[n]} ∪ names))
      as (names2 & -> & [Hm2 Hc2 Hs2] & Hcov2).
    { reflexivity. }
    { pose proof (unvisited_shrinks n names HU Hvisited). lia. }
    simpl.
    destruct (IH names2 Hds') as (names3 & -> & [Hm3 Hc3 Hs3] & Hcov3).
    { assert (Hsub : names ⊆ names2) by set_solver.
      pose proof (unvisited_le _ _ Hsub). lia. }
    exists names3. split; [reflexivity|]. split; [split|].
    + set_solver.
    + intros m Hin Hnot. destruct (decide (m ∈ names2)) as [Hm|Hm]; [|eauto].
      apply closed_mono with names2; [|assumption].
      destruct (decide (m = n)) as [->|Hmn].
      * intros q Hq Hqn. apply Hcov2; assumption.
      * apply Hc2; [assumption|set_solver].
    + intros m Hin Hnot. destruct (decide (m ∈ names2)) as [Hm|Hm]; [|eauto].
      exists p. split; [reflexivity|].
      destruct (decide (m = n)) as [->|Hmn].
      * apply depends_direct; assumption.
      * destruct (Hs2 m Hm) as (q & [Hq Hqn] & Hd); [set_solver|].
        eapply depends_step; eauto.
    + intros e' He' Hr. apply elem_of_cons in He' as [->|He'].
      * apply Hm3, Hm2. set_solver.
      * eauto.
Qed.

Lemma recurse_dependencies_ok k :
  recurse_ok packages (recurse_dependencies k packages) k.
Proof.
  induction k as [|k IH]; intros p names Hp Hk; [lia|].
  simpl.
  destruct (for_dependencies_ok _ k p IH Hp (Package.dependencies p) names)
    as (names' & Heq & Hv & Hcov); [reflexivity|lia|].
  exists names'. split; [assumption|]. split; [assumption|].
  intros e He Hr. apply Hcov; assumption.
Qed.

End Traversal.

(** ** The names the traversal collects *)

Section Resolver.
Variable packages : list Package.t.
Variable package_name : string.

Definition is_root (p : Package.t) : Prop :=
  p ∈ packages ∧ Package.name p = package_name.

(** With more fuel than there are names the first loop returns, and what it
    returns are the names some root depends on. *)
Lemma collect_names_ok fuel :
  enough_fuel packages ≤ fuel →
  ∃ names, collect_names fuel packages package_name = Some names
    ∧ ∀ n, n ∈ names ↔ ∃ p, is_root p ∧ depends_on packages p n.
Proof.
  intros Hfuel. unfold collect_names.
  destruct (for_packages_ok packages _ fuel package_name
              (recurse_dependencies_ok packages fuel) packages ∅)
    as (names & Heq & [_ Hclosed Hsound] & Hcov).
  { reflexivity. }
  { unfold enough_fuel in Hfuel.
    assert (Hsub : edge_names packages ∖ ∅ ⊆ edge_names packages) by set_solver.
    apply subseteq_size in Hsub. lia. }
  exists names. split; [exact Heq|].
  intros n. split.
  - intros Hn. destruct (Hsound n Hn) as (p & Hp & Hd); [set_solver|].
    exists p. split; [exact Hp|exact Hd].
  - intros (p & [Hp Hname] & Hd).
    assert (Hcovp : covers p names) by (apply Hcov; assumption).
    clear Hp Hname. induction Hd as [p e He Hr|p e q n He Hr Hq Hqn Hd IH].
    + apply Hcovp; assumption.
    + apply IH. apply (Hclosed (Dependency.name e)).
      * apply Hcovp; assumption.
      * set_solver.
      * assumption.
      * assumption.
Qed.

Lemma dependency_names_spec n :
  n ∈ dependency_names packages package_name
  ↔ ∃ p, is_root p ∧ depends_on packages p n.
Proof.
  unfold dependency_names.
  destruct (collect_names_ok (enough_fuel packages)) as (names & -> & Hspec);
    [reflexivity|].
  apply Hspec.
Qed.

Lemma collect_names_enough fuel :
  enough_fuel packages ≤ fuel →
  collect_names fuel packages package_name
  = Some (dependency_names packages package_name).
Proof.
  intros Hfuel. destruct (collect_names_ok fuel Hfuel) as (names & -> & Hspec).
  f_equal. apply set_eq. intros n.
  rewrite Hspec, dependency_names_spec. reflexivity.
Qed.

(** A root depends on [n] exactly when a followed edge of a traversed
    package names [n]. *)
Lemma depends_on_traversed n :
  (∃ p, is_root p ∧ depends_on packages p n)
  ↔ ∃ p e, traversed packages package_name p
           ∧ e ∈ Package.dependencies p ∧ runtime_edge e = true
           ∧ Dependency.name e = n.
Proof.
  split.
  - intros (p & [Hp Hname] & Hd).
    assert (Ht : traversed packages package_name p)
      by (apply traversed_root; assumption).
    clear Hp Hname. induction Hd as [p e He Hr|p e q n He Hr Hq Hqn Hd IH].
    + exists p, e. auto.
    + apply IH. eapply traversed_step; eauto.
  - intros (p & e & Ht & He & Hr & <-).
    assert (Hgen : ∀ n, depends_on packages p n →
              ∃ p0, is_root p0 ∧ depends_on packages p0 n).
    { clear e He Hr. induction Ht as [p Hp Hname|p e q Ht IH He Hr Hq Hqn].
      - intros n Hd. exists p. split; [split; assumption|assumption].
      - intros n Hd. apply IH. eapply depends_step; eauto. }
    apply Hgen. apply depends_direct; assumption.
Qed.

Lemma record_name (p : Package.t) :
  record p !! "name" = Some (VStr (Package.name p)).
Proof. reflexivity. Qed.

Lemma record_license (p : Package.t) :
  record p !! "license" = Some (Package.license p).
Proof. reflexivity. Qed.

(** What [get_package_dependencies] returns: a record for each package of
    the graph whose name was collected. *)
Lemma elem_of_get_package_dependencies (r : dict) :
  r ∈ get_package_dependencies packages package_name
  ↔ ∃ q, q ∈ packages ∧ r = record q
         ∧ Package.name q ∈ dependency_names packages package_name.
Proof.
  unfold get_package_dependencies. rewrite list_elem_of_fmap.
  split.
  - intros (q & -> & Hq). apply list_elem_of_filter in Hq as [Hn Hq].
    exists q. auto.
  - intros (q & Hq & -> & Hn). exists q. split; [reflexivity|].
    apply list_elem_of_filter. auto.
Qed.

End Resolver.

(** ** Edges that name no package *)

Section Prune.
Variable packages : list Package.t.

Lemma prune_package_name p :
  Package.name (prune_package packages p) = Package.name p.
Proof. reflexivity. Qed.

Lemma record_prune_package p :
  record (prune_package packages p) = record p.
Proof. reflexivity. Qed.

Lemma elem_of_prune p' :
  p' ∈ prune packages ↔ ∃ p, p ∈ packages ∧ p' = prune_package packages p.
Proof.
  unfold prune. rewrite list_elem_of_fmap. split.
  - intros (p & -> & Hp). eauto.
  - intros (p & Hp & ->). eauto.
Qed.

Lemma elem_of_prune_dependencies p e :
  e ∈ Package.dependencies (prune_package packages p)
  ↔ e ∈ Package.dependencies p ∧ Dependency.name e ∈ Package.name <$> packages.
Proof.
  simpl. rewrite list_elem_of_filter. unfold resolved_edge.
  rewrite bool_decide_eq_true. tauto.
Qed.

Lemma depends_on_prune p n :
  n ∈ Package.name <$> packages →
  p ∈ packages →
  depends_on packages p n →
  depends_on (prune packages) (prune_package packages p) n.
Proof.
  intros Hn Hp Hd. induction Hd as [p e He Hr|p e q n He Hr Hq Hqn Hd IH].
  - apply depends_direct; [|assumption].
    apply elem_of_prune_dependencies. auto.
  - apply depends_step with e (prune_package packages q).
    + apply elem_of_prune_dependencies. split; [assumption|].
      rewrite <- Hqn. apply list_elem_of_fmap. eauto.
    + assumption.
    + apply elem_of_prune. eauto.
    + assumption.
    + apply IH; assumption.
Qed.

Lemma depends_on_unprune p' n :
  depends_on (prune packages) p' n →
  ∀ p, p' = prune_package packages p → depends_on packages p n.
Proof.
  intros Hd. induction Hd as [p' e He Hr|p' e q' n He Hr Hq Hqn Hd IH];
    intros p ->.
  - apply elem_of_prune_dependencies in He as [He _].
    apply depends_direct; assumption.
  - apply elem_of_prune_dependencies in He as [He _].
    apply elem_of_prune in Hq as (q & Hq & ->).
    apply depends_step with e q; auto.
Qed.

Lemma dependency_names_prune package_name n :
  n ∈ Package.name <$> packages →
  n ∈ dependency_names (prune packages) package_name
  ↔ n ∈ dependency_names packages package_name.
Proof.
  intros Hn. rewrite !dependency_names_spec. split.
  - intros (p' & [Hp' Hname] & Hd).
    apply elem_of_prune in Hp' as (p & Hp & ->).
    exists p. split; [split; assumption|].
    eapply depends_on_unprune; eauto.
  - intros (p & [Hp Hname] & Hd).
    exists (prune_package packages p). split.
    + split; [apply elem_of_prune; eauto|assumption].
    + apply depends_on_prune; assumption.
Qed.

Lemma get_package_dependencies_prune package_name :
  get_package_dependencies (prune packages) package_name
  = get_package_dependencies packages package_name.
Proof.
  unfold get_package_dependencies, prune.
  assert (Hgen : ∀ l, l ⊆ packages →
    record <$> filter
      (λ package, Package.name package
                  ∈ dependency_names (prune_package packages <$> packages) package_name)
      (prune_package packages <$> l)
    = record <$> filter
      (λ package, Package.name package ∈ dependency_names packages package_name) l).
  { induction l as [|q l IH]; intros Hl; [reflexivity|].
    assert (Hq : q ∈ packages) by (apply Hl; left).
    assert (Hl' : l ⊆ packages) by (intros x Hx; apply Hl; right; exact Hx).
    assert (Hqn : Package.name q ∈ Package.name <$> packages)
      by (apply list_elem_of_fmap; eauto).
    pose proof (dependency_names_prune package_name _ Hqn) as Hiff.
    unfold prune in Hiff.
    rewrite fmap_cons, !filter_cons. rewrite prune_package_name.
    destruct (decide (Package.name q
                ∈ dependency_names (prune_package packages <$> packages) package_name))
      as [Hin|Hin];
    destruct (decide (Package.name q ∈ dependency_names packages package_name))
      as [Hin'|Hin']; try tauto.
    rewrite !fmap_cons, record_prune_package, IH by assumption. reflexivity. }
  apply Hgen. reflexivity.
Qed.

End Prune.

(** ** The resolver: claims about the graph *)

Module Cycle.
(** [A] depends on [B], and [B] on [A]. *)
Definition graph : list Package.t :=
  [Example.package "A" [Example.normal "B"];
   Example.package "B" [Example.normal "A"]].
End Cycle.

Module Dangling.
(** [A] depends on [B] and on [ghost], which is no package of the graph. *)
Definition graph : list Package.t :=
  [Example.package "A" [Example.normal "ghost"; Example.normal "B"];
   Example.package "B" []].
End Dangling.

Lemma record_inj_name (p q : Package.t) :
  record p = record q → Package.name p = Package.name q.
Proof.
  intros Heq.
  assert (H : record p !! "name" = record q !! "name") by (rewrite Heq; reflexivity).
  rewrite !record_name in H. congruence.
Qed.

(** C2, the example as the specification gives it: the traversal from [A]
    collects [B] and [D] only, so the set it produces is not {A, B, D}. *)
Lemma example_traversal_omits_root :
  dependency_names Example.graph "A" = {[ "B"; "D" ]}
  ∧ "A" ∉ dependency_names Example.graph "A"
  ∧ dependency_names Example.graph "A" ≠ {[ "A"; "B"; "D" ]}.
Proof.
  assert (H : dependency_names Example.graph "A" = {[ "B"; "D" ]})
    by (vm_compute; reflexivity).
  rewrite H. split; [reflexivity|]. split.
  - set_solver.
  - intros Heq. assert (Hin : "A" ∈ ({[ "B"; "D" ]} : gset string))
      by (rewrite Heq; set_solver).
    set_solver.
Qed.

(** C2, amended: a package of the graph is in the resolver's output exactly
    when a chain of one or more followed edges (neither [dev] nor [build],
    not limited to redox) leads to it from a package with the root's name; a
    package that only chains with a [dev] or [build] edge lead to is not.  The
    root is not added for being the root: in the example the output is the
    records of [B] and [D]. *)
Theorem resolve_follows_runtime_edges :
  (∀ packages package_name q,
     q ∈ packages →
     record q ∈ get_package_dependencies packages package_name
     ↔ ∃ p, is_root packages package_name p
            ∧ depends_on packages p (Package.name q))
  ∧ get_package_dependencies Example.graph "A"
    = [record Example.B; record Example.D].
Proof.
  split.
  - intros packages package_name q Hq.
    rewrite elem_of_get_package_dependencies. split.
    + intros (q' & Hq' & Heq & Hn).
      apply dependency_names_spec in Hn.
      rewrite (record_inj_name _ _ Heq). exact Hn.
    + intros Hd. exists q. split; [assumption|]. split; [reflexivity|].
      apply dependency_names_spec. exact Hd.
  - vm_compute. reflexivity.
Qed.

(** C8: an edge whose name matches no package does not stop the traversal,
    which returns with any fuel that is enough; the name is the name of no
    record of the output; and the output is the one of the graph without such
    edges. *)
Theorem unresolved_names_are_skipped :
  (∀ packages package_name fuel,
     enough_fuel packages ≤ fuel →
     collect_names fuel packages package_name
     = Some (dependency_names packages package_name))
  ∧ (∀ packages package_name n r,
       n ∉ Package.name <$> packages →
       r ∈ get_package_dependencies packages package_name →
       r !! "name" ≠ Some (VStr n))
  ∧ (∀ packages package_name,
       get_package_dependencies (prune packages) package_name
       = get_package_dependencies packages package_name)
  ∧ get_package_dependencies Dangling.graph "A" = [record (Example.package "B" [])].
Proof.
  split; [|split; [|split]].
  - intros packages package_name fuel. apply collect_names_enough.
  - intros packages package_name n r Hn Hr Hname.
    apply elem_of_get_package_dependencies in Hr as (q & Hq & -> & _).
    rewrite record_name in Hname. injection Hname as <-.
    apply Hn, list_elem_of_fmap. eauto.
  - intros packages package_name. apply get_package_dependencies_prune.
  - vm_compute. reflexivity.
Qed.

(** C10: every record of the output carries the name of a followed edge of a
    traversed package; so a record with the root's name is there only when
    such an edge leads back to that name, as in a cycle. *)
Theorem output_names_are_edge_targets :
  (∀ packages package_name r,
     r ∈ get_package_dependencies packages package_name →
     ∃ p e, traversed packages package_name p
            ∧ e ∈ Package.dependencies p ∧ runtime_edge e = true
            ∧ r !! "name" = Some (VStr (Dependency.name e)))
  ∧ (∀ packages package_name,
       (∀ p e, traversed packages package_name p →
               e ∈ Package.dependencies p → runtime_edge e = true →
               Dependency.name e ≠ package_name) →
       ∀ r, r ∈ get_package_dependencies packages package_name →
            r !! "name" ≠ Some (VStr package_name))
  ∧ record Example.A ∉ get_package_dependencies Example.graph "A"
  ∧ get_package_dependencies Cycle.graph "A"
    = record <$> Cycle.graph.
Proof.
  assert (Hfirst : ∀ packages package_name r,
     r ∈ get_package_dependencies packages package_name →
     ∃ p e, traversed packages package_name p
            ∧ e ∈ Package.dependencies p ∧ runtime_edge e = true
            ∧ r !! "name" = Some (VStr (Dependency.name e))).
  { intros packages package_name r Hr.
    apply elem_of_get_package_dependencies in Hr as (q & Hq & -> & Hn).
    apply dependency_names_spec, depends_on_traversed in Hn
      as (p & e & Ht & He & Hrt & Hname).
    exists p, e. rewrite record_name, Hname. auto. }
  split; [exact Hfirst|]. split; [|split].
  - intros packages package_name Hno r Hr Hname.
    destruct (Hfirst _ _ _ Hr) as (p & e & Ht & He & Hrt & Hname').
    rewrite Hname in Hname'. injection Hname' as Heq.
    apply (Hno p e); auto.
  - vm_compute. intros H. repeat (apply elem_of_cons in H as [H|H]; [discriminate H|]).
    inversion H.
  - vm_compute. reflexivity.
Qed.

(** ** Traces and outcomes of computations *)

(** A computation that did not return: it called [exit(1)] or raised. *)
Definition fatal {A} (m : M A) : Prop :=
  match outcome m with
  | Ret _ => False
  | Exit status => status = 1%Z
  | Raise _ => True
  end.

(** The only exit status a computation ends the process with is 1. *)
Definition exits_with_1 {A} (m : M A) : Prop :=
  ∀ status, outcome m = Exit status → status = 1%Z.

(** Every event of the computation satisfies [P]. *)
Definition events {A} (P : event → Prop) (m : M A) : Prop :=
  Forall P (trace m).

Section Monad.
Context {A B : Type}.
Implicit Types (m : M A) (f : A → M B).

Lemma bind_Ret t a f :
  ((t, Ret a) : M A) ≫= f = (t ++ trace (f a), outcome (f a)).
Proof.
  unfold mbind, M_bind, bind, trace, outcome. destruct (f a); reflexivity.
Qed.

Lemma bind_Exit t status f : ((t, Exit status) : M A) ≫= f = (t, Exit status).
Proof. reflexivity. Qed.

Lemma bind_Raise t e f : ((t, Raise e) : M A) ≫= f = (t, Raise e).
Proof. reflexivity. Qed.

Lemma bind_inv m f :
  (∃ a, outcome m = Ret a
        ∧ trace (m ≫= f) = trace m ++ trace (f a)
        ∧ outcome (m ≫= f) = outcome (f a))
  ∨ (fatal m ∨ (∃ status, outcome m = Exit status))
    ∧ trace (m ≫= f) = trace m
    ∧ match outcome m with
      | Ret _ => False
      | Exit status => outcome (m ≫= f) = Exit status
      | Raise e => outcome (m ≫= f) = Raise e
      end.
Proof.
  destruct m as [t [a|status|e]].
  - left. exists a. rewrite bind_Ret. auto.
  - right. rewrite bind_Exit. simpl. eauto.
  - right. rewrite bind_Raise. simpl. unfold fatal. simpl. auto.
Qed.

Lemma fatal_bind m f : fatal m → fatal (m ≫= f) ∧ trace (m ≫= f) = trace m.
Proof.
  destruct m as [t [a|status|e]]; unfold fatal; simpl; intros H;
    [contradiction| |]; auto.
Qed.

Lemma fatal_bind_r m f a :
  outcome m = Ret a → fatal (f a) → fatal (m ≫= f).
Proof.
  destruct m as [t r]. intros Hm. change (r = Ret a) in Hm. subst r.
  rewrite bind_Ret. unfold fatal. auto.
Qed.

Lemma exits_with_1_bind m f :
  exits_with_1 m → (∀ a, exits_with_1 (f a)) → exits_with_1 (m ≫= f).
Proof.
  destruct m as [t [a|status|e]]; intros Hm Hf s.
  - rewrite bind_Ret. exact (Hf a s).
  - rewrite bind_Exit. intros H. injection H as <-. exact (Hm status eq_refl).
  - rewrite bind_Raise. discriminate.
Qed.

Lemma events_bind P m f :
  events P m → (∀ a, events P (f a)) → events P (m ≫= f).
Proof.
  destruct m as [t [a|status|e]]; unfold events; intros Hm Hf.
  - rewrite bind_Ret. simpl in *. apply Forall_app. split; [exact Hm|apply Hf].
  - exact Hm.
  - exact Hm.
Qed.

Lemma fatal_exit_status m : fatal m → exit_status (outcome m) = 1%Z.
Proof. unfold fatal. destruct (outcome m); simpl; intros; subst; tauto. Qed.

Lemma not_Ret_fatal m :
  exits_with_1 m → (∀ a, outcome m ≠ Ret a) → fatal m.
Proof.
  unfold exits_with_1, fatal. destruct (outcome m) as [a|status|e]; intros H1 H2.
  - exact (H2 a eq_refl).
  - apply H1. reflexivity.
  - exact I.
Qed.

End Monad.

Lemma events_mret {A} P (a : A) : events P (mret a).
Proof. constructor. Qed.

Lemma events_raise {A} P e : events P (@raise A e).
Proof. constructor. Qed.

Lemma events_exit {A} P status : events P (@exit A status).
Proof. constructor. Qed.

Lemma events_emit P e : P e → events P (emit e).
Proof. intros H. repeat constructor. exact H. Qed.

Lemma events_getitem P d key : events P (getitem d key).
Proof. unfold getitem. destruct (d !! key); constructor. Qed.

Lemma exits_with_1_mret {A} (a : A) : exits_with_1 (mret a).
Proof. intros s H. discriminate H. Qed.

Lemma exits_with_1_raise {A} e : exits_with_1 (@raise A e).
Proof. intros s H. discriminate H. Qed.

Lemma exits_with_1_exit {A} : exits_with_1 (@exit A 1).
Proof. intros s H. injection H as <-. reflexivity. Qed.

Lemma exits_with_1_emit e : exits_with_1 (emit e).
Proof. intros s H. discriminate H. Qed.

Lemma exits_with_1_getitem d key : exits_with_1 (getitem d key).
Proof. unfold getitem. destruct (d !! key); intros s H; discriminate H. Qed.

(** One step of a proof that a computation keeps a property of its events or
    of its exit status. *)
Ltac mstep :=
  first
    [ apply events_bind | apply exits_with_1_bind
    | apply events_mret | apply exits_with_1_mret
    | apply events_raise | apply exits_with_1_raise
    | apply events_exit | apply exits_with_1_exit
    | apply events_getitem | apply exits_with_1_getitem
    | apply exits_with_1_emit
    | apply events_emit; try done
    | progress intros
    | case_match ].

(** ** parse_licenses: the licence expression *)

(** The table of rewritten spellings, on strings. *)
Definition normalize (raw : string) : string :=
  if decide (raw = "MIT/Apache-2.0") then "MIT OR Apache-2.0"
  else if decide (raw = "(Apache-2.0 OR MIT) AND BSD-3-Clause")
  then "MIT AND BSD-3-Clause"
  else if decide (raw = "(MIT OR Apache-2.0) AND Unicode-3.0")
  then "MIT AND Unicode-3.0"
  else raw.

(** The alternatives of an expression, and the identifiers of one of them. *)
Definition branches (raw : string) : list string := split_strip "OR" (normalize raw).
Definition identifiers (branch : string) : list string := split_strip "AND" branch.

(** Every identifier of the alternative is one that needs no notice. *)
Definition notice_free (branch : string) : Prop :=
  Forall (λ license, license ∈ SKIPPABLE_NOTICE_LICENSES) (identifiers branch).

Lemma select_expression_str raw :
  select_expression (VStr raw) = VStr (normalize raw).
Proof.
  unfold select_expression, normalize.
  repeat case_decide; congruence.
Qed.

Lemma split_go_nonempty sep skip cur s : Str.split_go sep skip cur s ≠ [].
Proof.
  revert skip cur. induction s as [|c s IH]; intros skip cur; simpl; [discriminate|].
  destruct skip; [|apply IH].
  destruct (Str.startswith sep (String c s)); [discriminate|apply IH].
Qed.

Lemma split_strip_nonempty sep s : split_strip sep s ≠ [].
Proof.
  unfold split_strip, Str.split.
  pose proof (split_go_nonempty sep 0 "" s) as H.
  destruct (Str.split_go sep 0 "" s); [contradiction|discriminate].
Qed.

Lemma all_skippable_spec licenses :
  all_skippable licenses = true
  ↔ Forall (λ license, license ∈ SKIPPABLE_NOTICE_LICENSES) licenses.
Proof.
  unfold all_skippable. rewrite forallb_forall, Forall_forall.
  split; intros H x Hx.
  - apply list_elem_of_In in Hx. apply H in Hx.
    apply bool_decide_eq_true in Hx. exact Hx.
  - apply bool_decide_eq_true. apply H. apply list_elem_of_In. exact Hx.
Qed.

Lemma all_skippable_false branch :
  all_skippable (identifiers branch) = false ↔ ¬ notice_free branch.
Proof.
  unfold notice_free. rewrite <- all_skippable_spec.
  destruct (all_skippable (identifiers branch)); split; intros H;
    try discriminate; try reflexivity; try (intros H'; discriminate H').
  exfalso. apply H. reflexivity.
Qed.

(** The first loop returns the identifiers of the first alternative that
    needs no notice. *)
Lemma pick_skippable_Some licenses_any licenses_all :
  pick_skippable licenses_any = Some licenses_all →
  ∃ before branch after,
    licenses_any = before ++ branch :: after
    ∧ Forall (λ b, ¬ notice_free b) before
    ∧ notice_free branch
    ∧ licenses_all = identifiers branch.
Proof.
  induction licenses_any as [|b rest IH]; simpl; [discriminate|].
  destruct (all_skippable (split_strip "AND" b)) eqn:Hb.
  - intros [= <-]. exists [], b, rest. split; [reflexivity|].
    split; [constructor|]. split; [|reflexivity].
    apply all_skippable_spec. exact Hb.
  - intros H. destruct (IH H) as (before & branch & after & -> & Hbefore & Hfree & ->).
    exists (b :: before), branch, after. split; [reflexivity|].
    split; [|auto]. constructor; [|exact Hbefore].
    apply all_skippable_false. exact Hb.
Qed.

Lemma pick_skippable_None licenses_any :
  pick_skippable licenses_any = None →
  Forall (λ b, ¬ notice_free b) licenses_any.
Proof.
  induction licenses_any as [|b rest IH]; simpl; [constructor|].
  destruct (all_skippable (split_strip "AND" b)) eqn:Hb; [discriminate|].
  intros H. constructor; [|auto]. apply all_skippable_false. exact Hb.
Qed.

(** What [parse_licenses] does with a licence that is a string. *)
Lemma parse_licenses_str dependency raw :
  dependency !! "license" = Some (VStr raw) →
  parse_licenses dependency
  = match pick_skippable (branches raw) with
    | Some licenses_all => mret licenses_all
    | None =>
        if bool_decide ("MIT" ∈ branches raw) then mret ["MIT"]
        else mret (identifiers (hd "" (branches raw)))
    end.
Proof.
  intros H. unfold parse_licenses. rewrite H, select_expression_str.
  fold (branches raw).
  destruct (pick_skippable (branches raw)); [reflexivity|].
  destruct (bool_decide ("MIT" ∈ branches raw)); [reflexivity|].
  pose proof (split_strip_nonempty "OR" (normalize raw)) as Hne.
  fold (branches raw) in Hne.
  destruct (branches raw); [contradiction|reflexivity].
Qed.

Lemma parse_licenses_missing dependency name :
  dependency !! "license" = None → dependency !! "name" = Some name →
  parse_licenses dependency
  = ([Stderr ("Found dependency with no license: " +:+ str name)], Exit 1).
Proof.
  intros Hl Hn. unfold parse_licenses, getitem. rewrite Hl, Hn. reflexivity.
Qed.

Lemma parse_licenses_missing_name dependency :
  dependency !! "license" = None → dependency !! "name" = None →
  parse_licenses dependency = ([], Raise (KeyError "name")).
Proof.
  intros Hl Hn. unfold parse_licenses, getitem. rewrite Hl, Hn. reflexivity.
Qed.

(** With the key there, whatever it holds, nothing is printed and the process
    is not ended by [exit]. *)
Lemma parse_licenses_present dependency license :
  dependency !! "license" = Some license →
  trace (parse_licenses dependency) = []
  ∧ ∀ status, outcome (parse_licenses dependency) ≠ Exit status.
Proof.
  intros H. unfold parse_licenses. rewrite H.
  destruct (select_expression license); [split; [reflexivity|discriminate]|].
  destruct (pick_skippable _); [split; [reflexivity|discriminate]|].
  destruct (bool_decide _); [split; [reflexivity|discriminate]|].
  destruct (split_strip "OR" s); split; try reflexivity; discriminate.
Qed.

Lemma parse_licenses_Ret dependency licenses t :
  parse_licenses dependency = (t, Ret licenses) →
  t = [] ∧ ∃ license, dependency !! "license" = Some license.
Proof.
  intros H. destruct (dependency !! "license") as [license|] eqn:Hl.
  - pose proof (parse_licenses_present _ _ Hl) as [Ht _].
    rewrite H in Ht. simpl in Ht. eauto.
  - destruct (dependency !! "name") as [name|] eqn:Hn.
    + rewrite (parse_licenses_missing _ _ Hl Hn) in H. discriminate H.
    + rewrite (parse_licenses_missing_name _ Hl Hn) in H. discriminate H.
Qed.

Lemma parse_licenses_exits_with_1 dependency : exits_with_1 (parse_licenses dependency).
Proof.
  destruct (dependency !! "license") as [license|] eqn:Hl.
  - intros s Hs. exfalso. eapply parse_licenses_present; eauto.
  - destruct (dependency !! "name") as [name|] eqn:Hn.
    + rewrite (parse_licenses_missing _ _ Hl Hn). intros s [= <-]. reflexivity.
    + rewrite (parse_licenses_missing_name _ Hl Hn). intros s [=].
Qed.

Lemma parse_licenses_events dependency :
  events (λ e, ∃ line, e = Stderr line) (parse_licenses dependency).
Proof.
  destruct (dependency !! "license") as [license|] eqn:Hl.
  - unfold events. rewrite (proj1 (parse_licenses_present _ _ Hl)). constructor.
  - destruct (dependency !! "name") as [name|] eqn:Hn.
    + rewrite (parse_licenses_missing _ _ Hl Hn). repeat constructor. eauto.
    + rewrite (parse_licenses_missing_name _ Hl Hn). constructor.
Qed.

(** ** The first loop of download_licenses *)

Lemma fatal_bind_all {A B} (m : M A) (f : A → M B) :
  exits_with_1 m → (∀ a, fatal (f a)) → fatal (m ≫= f).
Proof.
  intros Hm Hf. destruct m as [t [a|status|e]].
  - rewrite bind_Ret. apply Hf.
  - rewrite bind_Exit. unfold fatal. simpl. exact (Hm status eq_refl).
  - rewrite bind_Raise. exact I.
Qed.

Lemma parse_licenses_fatal (dependency : dict) :
  dependency !! "license" = None → fatal (parse_licenses dependency).
Proof.
  intros Hl. destruct (dependency !! "name") as [name|] eqn:Hn.
  - rewrite (parse_licenses_missing _ _ Hl Hn). reflexivity.
  - rewrite (parse_licenses_missing_name _ Hl Hn). exact I.
Qed.

Lemma collect_licenses_fatal (dependency : dict) dependencies unique_licenses :
  dependency ∈ dependencies → dependency !! "license" = None →
  fatal (collect_licenses dependencies unique_licenses).
Proof.
  intros Hin Hl. revert unique_licenses.
  induction dependencies as [|d rest IH]; intros unique_licenses; [inversion Hin|].
  simpl. apply elem_of_cons in Hin as [<-|Hin].
  - apply fatal_bind. apply parse_licenses_fatal. exact Hl.
  - apply fatal_bind_all; [apply parse_licenses_exits_with_1|].
    intros licenses. apply IH. exact Hin.
Qed.

Lemma collect_licenses_events dependencies unique_licenses :
  events (λ e, ∃ line, e = Stderr line) (collect_licenses dependencies unique_licenses).
Proof.
  revert unique_licenses. induction dependencies as [|d rest IH];
    intros unique_licenses; simpl.
  - apply events_mret.
  - apply events_bind; [apply parse_licenses_events|]. intros licenses. apply IH.
Qed.

Lemma collect_licenses_exits_with_1 dependencies unique_licenses :
  exits_with_1 (collect_licenses dependencies unique_licenses).
Proof.
  revert unique_licenses. induction dependencies as [|d rest IH];
    intros unique_licenses; simpl.
  - apply exits_with_1_mret.
  - apply exits_with_1_bind; [apply parse_licenses_exits_with_1|].
    intros licenses. apply IH.
Qed.

(** The dependencies before the first one without a licence all parse: the
    loop then ends at that one, with its message. *)
Lemma collect_licenses_first_missing (dependency : dict) name before after unique_licenses :
  dependency !! "license" = None → dependency !! "name" = Some name →
  Forall (λ d, ∃ licenses, parse_licenses d = ([], Ret licenses)) before →
  collect_licenses (before ++ dependency :: after) unique_licenses
  = ([Stderr ("Found dependency with no license: " +:+ str name)], Exit 1).
Proof.
  intros Hl Hn Hbefore. revert unique_licenses.
  induction Hbefore as [|d before [licenses Hd] _ IH]; intros unique_licenses; simpl.
  - rewrite (parse_licenses_missing _ _ Hl Hn). reflexivity.
  - rewrite Hd, bind_Ret, IH. reflexivity.
Qed.

(** A run whose first loop does not return ends there. *)
Lemma run_collect_fatal w dependencies :
  fatal (collect_licenses dependencies ∅) →
  fatal (run w dependencies)
  ∧ trace (run w dependencies) = trace (collect_licenses dependencies ∅).
Proof.
  intros Hf. unfold run, download_licenses.
  pose proof (fatal_bind (collect_licenses dependencies ∅)
    (λ unique_licenses,
       for_each (download_license w (Path.join output_dir "licenses"))
         (set_order w (consolidate unique_licenses))) Hf) as [Hf1 Ht1].
  pose proof (fatal_bind _
    (λ _ : unit, notices_rst ← add_dependencies w dependencies (header w);
                 emit (WriteFile notices_rst_path notices_rst)) Hf1) as [Hf2 Ht2].
  split; [exact Hf2|]. rewrite Ht2, Ht1. reflexivity.
Qed.

(** C9: the message and [exit(1)] of [parse_licenses] belong to the records
    without the key [license]: with the key there, also when it holds [None]
    or the empty string, nothing is printed and [exit] is not called.  A
    record of [get_package_dependencies] has the key. *)
Theorem missing_license_path_iff_key_absent :
  (∀ dependency : dict,
     dependency !! "license" = None →
     (∃ name, dependency !! "name" = Some name
              ∧ parse_licenses dependency
                = ([Stderr ("Found dependency with no license: " +:+ str name)], Exit 1))
     ∨ (dependency !! "name" = None
        ∧ parse_licenses dependency = ([], Raise (KeyError "name"))))
  ∧ (∀ (dependency : dict) license,
       dependency !! "license" = Some license →
       trace (parse_licenses dependency) = []
       ∧ ∀ status, outcome (parse_licenses dependency) ≠ Exit status)
  ∧ (∀ dependency : dict,
       dependency !! "license" = Some VNone →
       parse_licenses dependency = ([], Raise (AttributeError "split")))
  ∧ (∀ dependency : dict,
       dependency !! "license" = Some (VStr "") →
       parse_licenses dependency = ([], Ret [""]))
  ∧ (∀ packages package_name (r : dict),
       r ∈ get_package_dependencies packages package_name →
       is_Some (r !! "license")
       ∧ trace (parse_licenses r) = []
       ∧ ∀ status, outcome (parse_licenses r) ≠ Exit status).
Proof.
  split; [|split; [|split; [|split]]].
  - intros dependency Hl. destruct (dependency !! "name") as [name|] eqn:Hn.
    + left. exists name. split; [reflexivity|]. apply parse_licenses_missing; assumption.
    + right. split; [reflexivity|]. apply parse_licenses_missing_name; assumption.
  - apply parse_licenses_present.
  - intros dependency H. unfold parse_licenses. rewrite H. reflexivity.
  - intros dependency H. rewrite (parse_licenses_str _ _ H). vm_compute. reflexivity.
  - intros packages package_name r Hr.
    apply elem_of_get_package_dependencies in Hr as (q & _ & -> & _).
    split; [rewrite record_license; eauto|].
    apply (parse_licenses_present _ (Package.license q)). apply record_license.
Qed.

(** A record of the resolver for a package whose licence is [null]. *)
Lemma missing_license_path_iff_key_absent_witness :
  let unlicensed := Package.mk "B" "1.0.0" VNone "/src/B/Cargo.toml" [] in
  let packages := [Example.package "A" [Example.normal "B"]; unlicensed] in
  record unlicensed ∈ get_package_dependencies packages "A"
  ∧ is_Some (record unlicensed !! "license")
  ∧ trace (parse_licenses (record unlicensed)) = []
  ∧ ∀ status, outcome (parse_licenses (record unlicensed)) ≠ Exit status.
Proof.
  intros unlicensed packages.
  assert (Hin : record unlicensed ∈ get_package_dependencies packages "A").
  { vm_compute. apply list_elem_of_here. }
  split; [exact Hin|].
  exact (proj2 (proj2 (proj2 (proj2 missing_license_path_iff_key_absent)))
           packages "A" _ Hin).
Defined.

(** ** download_licenses: what is fetched *)

(** The URLs a trace opened, in order. *)
Definition opened_urls (t : list event) : list string :=
  omap (λ e, match e with UrlOpen url => Some url | _ => None end) t.

Lemma append_nil t : "" +:+ t = t.
Proof. reflexivity. Qed.

Lemma append_cons c s t : String c s +:+ t = String c (s +:+ t).
Proof. reflexivity. Qed.

Lemma append_length s t :
  String.length (s +:+ t) = String.length s + String.length t.
Proof.
  induction s as [|c s IH]; [reflexivity|].
  rewrite append_cons. simpl. rewrite IH. reflexivity.
Qed.

Lemma append_inj_r s1 s2 t : s1 +:+ t = s2 +:+ t → s1 = s2.
Proof.
  revert s2. induction s1 as [|c s1 IH]; intros [|c' s2] H.
  - reflexivity.
  - apply (f_equal String.length) in H.
    rewrite append_nil, append_cons in H. simpl in H.
    rewrite append_length in H. lia.
  - apply (f_equal String.length) in H.
    rewrite append_nil, append_cons in H. simpl in H.
    rewrite append_length in H. lia.
  - rewrite !append_cons in H. injection H as -> H. f_equal. apply IH. exact H.
Qed.

Global Instance license_url_inj : Inj (=) (=) license_url.
Proof.
  intros l1 l2 H. unfold license_url in H.
  apply String.app_inj in H. apply append_inj_r in H. exact H.
Qed.

Lemma opened_urls_app t1 t2 :
  opened_urls (t1 ++ t2) = opened_urls t1 ++ opened_urls t2.
Proof. apply omap_app. Qed.

(** One turn of the second loop opens the URL of the licence, unless the
    licence is one to skip. *)
Lemma download_license_opened w output_directory license :
  opened_urls (trace (download_license w output_directory license))
  = if bool_decide (license ∈ SKIPPABLE_LICENSE_FILES) then []
    else [license_url license].
Proof.
  unfold download_license.
  destruct (bool_decide (license ∈ SKIPPABLE_LICENSE_FILES)); [reflexivity|].
  destruct (urlopen w (license_url license)) as [e|r]; [reflexivity|].
  destruct (decide (status r ≠ 200%Z)); reflexivity.
Qed.

Lemma download_license_exits_with_1 w output_directory license :
  exits_with_1 (download_license w output_directory license).
Proof.
  unfold download_license.
  destruct (bool_decide (license ∈ SKIPPABLE_LICENSE_FILES));
    [apply exits_with_1_mret|].
  destruct (urlopen w (license_url license)) as [e|r]; [intros s [=]|].
  destruct (decide (status r ≠ 200%Z)); intros s [=]; subst; reflexivity.
Qed.

Lemma for_each_cons {A} (body : A → M unit) x rest :
  for_each body (x :: rest) = (body x ≫= λ _, for_each body rest).
Proof. reflexivity. Qed.

Lemma for_each_exits_with_1 {A} (body : A → M unit) l :
  (∀ x, exits_with_1 (body x)) → exits_with_1 (for_each body l).
Proof.
  intros Hbody. induction l as [|x rest IH].
  - apply exits_with_1_mret.
  - rewrite for_each_cons. apply exits_with_1_bind; auto.
Qed.

Lemma for_each_events {A} P (body : A → M unit) l :
  (∀ x, x ∈ l → events P (body x)) → events P (for_each body l).
Proof.
  induction l as [|x rest IH]; intros Hbody.
  - apply events_mret.
  - rewrite for_each_cons. apply events_bind.
    + apply Hbody. left.
    + intros _. apply IH. intros y Hy. apply Hbody. right. exact Hy.
Qed.

(** The trace of a sequence is the trace of its first part followed by a
    trace of the second, or by nothing. *)
Lemma trace_bind {A B} (m : M A) (f : A → M B) :
  trace (m ≫= f) = trace m
  ∨ ∃ a, outcome m = Ret a ∧ trace (m ≫= f) = trace m ++ trace (f a).
Proof.
  destruct m as [t [a|status|e]].
  - right. exists a. rewrite bind_Ret. auto.
  - left. reflexivity.
  - left. reflexivity.
Qed.

Lemma for_each_opened w output_directory licenses url :
  url ∈ opened_urls (trace (for_each (download_license w output_directory) licenses)) →
  ∃ license, license ∈ licenses ∧ license ∉ SKIPPABLE_LICENSE_FILES
             ∧ url = license_url license.
Proof.
  induction licenses as [|x rest IH]; [intros H; inversion H|].
  rewrite for_each_cons. intros H.
  assert (Hx : url ∈ opened_urls (trace (download_license w output_directory x)) →
               ∃ license, license ∈ x :: rest ∧ license ∉ SKIPPABLE_LICENSE_FILES
                          ∧ url = license_url license).
  { rewrite download_license_opened. case_bool_decide as Hskip; [intros H'; inversion H'|].
    intros H'. apply list_elem_of_singleton in H'. exists x.
    split; [left|]. auto. }
  destruct (trace_bind (download_license w output_directory x)
              (λ _, for_each (download_license w output_directory) rest))
    as [Ht|(a & _ & Ht)]; rewrite Ht in H.
  - auto.
  - rewrite opened_urls_app in H. apply elem_of_app in H as [H|H]; [auto|].
    destruct (IH H) as (license & Hin & Hskip & Heq).
    exists license. split; [right; exact Hin|]. auto.
Qed.

Lemma for_each_opened_NoDup w output_directory licenses :
  NoDup licenses →
  NoDup (opened_urls (trace (for_each (download_license w output_directory) licenses))).
Proof.
  induction licenses as [|x rest IH]; intros Hnd; [constructor|].
  apply NoDup_cons in Hnd as [Hx Hnd]. rewrite for_each_cons.
  assert (Hone : NoDup (opened_urls (trace (download_license w output_directory x)))).
  { rewrite download_license_opened. case_bool_decide; [constructor|].
    apply NoDup_singleton. }
  destruct (trace_bind (download_license w output_directory x)
              (λ _, for_each (download_license w output_directory) rest))
    as [Ht|(a & _ & Ht)]; rewrite Ht; [exact Hone|].
  rewrite opened_urls_app. apply NoDup_app. split; [exact Hone|]. split; [|auto].
  intros url Hurl Hrest.
  apply for_each_opened in Hrest as (license & Hin & _ & ->).
  rewrite download_license_opened in Hurl. case_bool_decide; [inversion Hurl|].
  apply list_elem_of_singleton in Hurl. apply (inj license_url) in Hurl. subst.
  contradiction.
Qed.

Lemma collect_licenses_opened dependencies unique_licenses :
  opened_urls (trace (collect_licenses dependencies unique_licenses)) = [].
Proof.
  pose proof (collect_licenses_events dependencies unique_licenses) as H.
  unfold events in H. induction H as [|e t [line ->] _ IH]; [reflexivity|exact IH].
Qed.

(** What the GPL rule does to a set. *)
Lemma consolidate_spec unique_licenses license :
  license ∈ consolidate unique_licenses
  ↔ license ∈ unique_licenses
    ∧ ("GPL-3.0-or-later" ∈ unique_licenses →
       license ≠ "GPL-3.0" ∧ license ≠ "GPL-3.0-only").
Proof.
  unfold consolidate. case_decide; set_solver.
Qed.

Lemma collect_licenses_Ret dependencies unique_licenses result :
  outcome (collect_licenses dependencies unique_licenses) = Ret result →
  ∀ license,
    license ∈ result
    ↔ license ∈ unique_licenses
      ∨ ∃ (d : dict) licenses,
          d ∈ dependencies ∧ outcome (parse_licenses d) = Ret licenses
          ∧ license ∈ licenses.
Proof.
  revert unique_licenses.
  induction dependencies as [|d rest IH]; intros unique_licenses; simpl.
  - intros [= <-] license. split; [auto|].
    intros [H|(d & licenses & Hin & _)]; [exact H|inversion Hin].
  - destruct (parse_licenses d) as [t [licenses|s|e]] eqn:Hd;
      [|discriminate|discriminate].
    rewrite bind_Ret. intros H license.
    change (outcome (collect_licenses rest (unique_licenses ∪ list_to_set licenses))
            = Ret result) in H.
    rewrite (IH _ H license), elem_of_union, elem_of_list_to_set. split.
    + intros [[Hl|Hl]|(d' & licenses' & Hin & Hp & Hl)].
      * left. exact Hl.
      * right. exists d, licenses. split; [left|]. rewrite Hd. auto.
      * right. exists d', licenses'. split; [right; exact Hin|]. auto.
    + intros [Hl|(d' & licenses' & Hin & Hp & Hl)]; [auto|].
      apply elem_of_cons in Hin as [->|Hin].
      * rewrite Hd in Hp. injection Hp as <-. auto.
      * right. eauto.
Qed.

(** The set the second loop is to go over: the identifiers of the run,
    without [GPL-3.0] and [GPL-3.0-only] when [GPL-3.0-or-later] is one of
    them. *)
Definition fetch_set (unique_licenses : gset string) : gset string :=
  if decide ("GPL-3.0-or-later" ∈ unique_licenses)
  then unique_licenses ∖ {[ "GPL-3.0"; "GPL-3.0-only" ]}
  else unique_licenses.

(** The licences of a list that are not in the skip list, in the order of
    the list. *)
Definition fetched (licenses : list string) : list string :=
  filter (λ license, license ∉ SKIPPABLE_LICENSE_FILES) licenses.

Lemma consolidate_fetch_set unique_licenses :
  consolidate unique_licenses = fetch_set unique_licenses.
Proof.
  unfold consolidate, fetch_set. case_decide; [|reflexivity].
  apply set_eq. intros license. set_solver.
Qed.

(** The loop opens the URLs of the licences to fetch in the order of the
    list, as far as it gets. *)
Lemma for_each_opened_prefix w output_directory licenses :
  opened_urls (trace (for_each (download_license w output_directory) licenses))
  `prefix_of` license_url <$> fetched licenses.
Proof.
  induction licenses as [|x rest IH]; [apply prefix_nil|].
  rewrite for_each_cons. unfold fetched. rewrite filter_cons. fold (fetched rest).
  destruct (trace_bind (download_license w output_directory x)
              (λ _, for_each (download_license w output_directory) rest))
    as [Ht|(a & _ & Ht)]; rewrite Ht; clear Ht.
  - rewrite download_license_opened.
    destruct (decide (x ∉ SKIPPABLE_LICENSE_FILES)) as [Hx|Hx].
    + rewrite bool_decide_eq_false_2 by exact Hx.
      rewrite fmap_cons. apply prefix_cons, prefix_nil.
    + apply dec_stable in Hx. rewrite bool_decide_eq_true_2 by exact Hx.
      apply prefix_nil.
  - rewrite opened_urls_app, download_license_opened.
    destruct (decide (x ∉ SKIPPABLE_LICENSE_FILES)) as [Hx|Hx].
    + rewrite bool_decide_eq_false_2 by exact Hx.
      rewrite fmap_cons. apply prefix_cons. exact IH.
    + apply dec_stable in Hx. rewrite bool_decide_eq_true_2 by exact Hx.
      exact IH.
Qed.

(** A loop that returns has opened all of them. *)
Lemma for_each_opened_all w output_directory licenses :
  outcome (for_each (download_license w output_directory) licenses) = Ret tt →
  opened_urls (trace (for_each (download_license w output_directory) licenses))
  = license_url <$> fetched licenses.
Proof.
  induction licenses as [|x rest IH]; intros H; [reflexivity|].
  rewrite for_each_cons in *. unfold fetched. rewrite filter_cons. fold (fetched rest).
  pose proof (download_license_opened w output_directory x) as Hx.
  destruct (download_license w output_directory x) as [t [[]|s|e]];
    [|discriminate H|discriminate H].
  rewrite bind_Ret in *. simpl in H, Hx. simpl.
  rewrite opened_urls_app, Hx, (IH H).
  destruct (decide (x ∉ SKIPPABLE_LICENSE_FILES)) as [Hskip|Hskip].
  - rewrite bool_decide_eq_false_2 by exact Hskip. reflexivity.
  - apply dec_stable in Hskip. rewrite bool_decide_eq_true_2 by exact Hskip.
    reflexivity.
Qed.

(** C7: the identifiers of the run are those [parse_licenses] returns for
    the dependencies.  [download_licenses] takes [GPL-3.0] and [GPL-3.0-only]
    out of that set when [GPL-3.0-or-later] is in it, and only then goes over
    it: the URLs it opens are, in the order in which the set so reduced hands
    out its elements, those of its licences that are not in the skip list, as
    far as the run gets, and all of them when it returns.  No licence of the
    skip list is fetched, and no URL is opened twice. *)
Theorem fetch_set_policy (w : world) (dependencies : list dict)
    (output_directory : string)
    (Horder : ∀ X : gset string, set_order w X ≡ₚ elements X) :
  let t := trace (download_licenses w dependencies output_directory) in
  (∀ license, license ∈ SKIPPABLE_LICENSE_FILES →
              license_url license ∉ opened_urls t)
  ∧ (∀ unique_licenses : gset string,
       outcome (collect_licenses dependencies ∅) = Ret unique_licenses →
       (∀ license,
          license ∈ unique_licenses
          ↔ ∃ (d : dict) licenses,
              d ∈ dependencies ∧ outcome (parse_licenses d) = Ret licenses
              ∧ license ∈ licenses)
       ∧ opened_urls t
         `prefix_of` license_url <$> fetched (set_order w (fetch_set unique_licenses))
       ∧ (outcome (download_licenses w dependencies output_directory) = Ret tt →
          opened_urls t
          = license_url <$> fetched (set_order w (fetch_set unique_licenses))))
  ∧ ((∀ unique_licenses : gset string,
        outcome (collect_licenses dependencies ∅) ≠ Ret unique_licenses) →
     opened_urls t = [])
  ∧ (∀ url, url ∈ opened_urls t →
       ∃ unique_licenses license,
         outcome (collect_licenses dependencies ∅) = Ret unique_licenses
         ∧ license ∈ fetch_set unique_licenses
         ∧ license ∉ SKIPPABLE_LICENSE_FILES
         ∧ url = license_url license)
  ∧ NoDup (opened_urls t).
Proof.
  intros t.
  assert (Hshape :
    (opened_urls t = []
     ∧ ∀ unique_licenses, outcome (collect_licenses dependencies ∅) ≠ Ret unique_licenses)
    ∨ ∃ unique_licenses,
        outcome (collect_licenses dependencies ∅) = Ret unique_licenses
        ∧ opened_urls t
          = opened_urls (trace (for_each (download_license w output_directory)
                                  (set_order w (fetch_set unique_licenses))))
        ∧ (outcome (download_licenses w dependencies output_directory) = Ret tt →
           outcome (for_each (download_license w output_directory)
                      (set_order w (fetch_set unique_licenses))) = Ret tt)).
  { subst t. unfold download_licenses.
    pose proof (collect_licenses_opened dependencies ∅) as Hnone.
    destruct (collect_licenses dependencies ∅) as [t0 [unique_licenses|s|e]].
    - right. exists unique_licenses. split; [reflexivity|].
      rewrite bind_Ret, consolidate_fetch_set. simpl in *.
      rewrite opened_urls_app, Hnone. split; [reflexivity|]. intros H. exact H.
    - left. split; [exact Hnone|]. intros unique_licenses. discriminate.
    - left. split; [exact Hnone|]. intros unique_licenses. discriminate. }
  assert (Hthird : ∀ url, url ∈ opened_urls t →
       ∃ unique_licenses license,
         outcome (collect_licenses dependencies ∅) = Ret unique_licenses
         ∧ license ∈ fetch_set unique_licenses
         ∧ license ∉ SKIPPABLE_LICENSE_FILES
         ∧ url = license_url license).
  { intros url Hurl. destruct Hshape as [[Hnil _]|(unique_licenses & Hret & Heq & _)].
    - rewrite Hnil in Hurl. inversion Hurl.
    - rewrite Heq in Hurl.
      apply for_each_opened in Hurl as (license & Hin & Hskip & ->).
      exists unique_licenses, license. split; [exact Hret|]. split; [|auto].
      rewrite (Horder _) in Hin. apply elem_of_elements in Hin. exact Hin. }
  split; [|split; [|split; [|split]]].
  - intros license Hskip Hurl.
    destruct (Hthird _ Hurl) as (_ & license' & _ & _ & Hskip' & Heq).
    apply (inj license_url) in Heq. subst. contradiction.
  - intros unique_licenses Hret. split; [|split].
    + intros license.
      rewrite (collect_licenses_Ret dependencies ∅ unique_licenses Hret license).
      split; [intros [H|H]; [set_solver|exact H]|auto].
    + destruct Hshape as [[_ Hno]|(unique' & Hret' & -> & _)].
      * exfalso. exact (Hno _ Hret).
      * rewrite Hret in Hret'. injection Hret' as <-.
        apply for_each_opened_prefix.
    + intros Hdone. destruct Hshape as [[_ Hno]|(unique' & Hret' & -> & Hall)].
      * exfalso. exact (Hno _ Hret).
      * rewrite Hret in Hret'. injection Hret' as <-.
        apply for_each_opened_all. exact (Hall Hdone).
  - intros Hno. destruct Hshape as [[Hnil _]|(unique_licenses & Hret & _)];
      [exact Hnil|].
    exfalso. exact (Hno _ Hret).
  - exact Hthird.
  - destruct Hshape as [[-> _]|(unique_licenses & _ & -> & _)]; [constructor|].
    apply for_each_opened_NoDup. rewrite (Horder _). apply NoDup_elements.
Qed.

(** The licences of four dependencies, for a set that hands out its
    elements in one order when [GPL-3.0] is in it and in the opposite order
    when it is not: [GPL-3.0-or-later] puts [GPL-3.0] out of the set before
    the loop, so the texts of [MIT] and [Apache-2.0] are fetched in the order
    of a set without it. *)
Lemma fetch_set_policy_witness :
  let w := {| scandir := λ _, None;
              urlopen := λ _, inr {| status := 200; reason := "OK"; read := "text" |};
              now := "";
              set_order := λ X, if decide ("GPL-3.0" ∈ X) then elements X
                                else reverse (elements X) |} in
  let dependencies : list dict :=
    [ {[ "license" := VStr "GPL-3.0-or-later" ]};
      {[ "license" := VStr "GPL-3.0" ]};
      {[ "license" := VStr "MIT" ]};
      {[ "license" := VStr "Apache-2.0" ]} ] in
  let unique_licenses : gset string :=
    {[ "GPL-3.0-or-later"; "GPL-3.0"; "MIT"; "Apache-2.0" ]} in
  (∀ X : gset string, set_order w X ≡ₚ elements X)
  ∧ outcome (collect_licenses dependencies ∅) = Ret unique_licenses
  ∧ fetched (set_order w unique_licenses)
    = reverse (fetched (set_order w (fetch_set unique_licenses)))
  ∧ opened_urls (trace (download_licenses w dependencies "licenses"))
    = license_url <$> fetched (set_order w (fetch_set unique_licenses)).
Proof.
  intros w dependencies unique_licenses.
  assert (Horder : ∀ X : gset string, set_order w X ≡ₚ elements X).
  { intros X. simpl. case_decide; [reflexivity|apply reverse_Permutation]. }
  assert (Hret : outcome (collect_licenses dependencies ∅) = Ret unique_licenses)
    by (vm_compute; reflexivity).
  split; [exact Horder|]. split; [exact Hret|]. split; [vm_compute; reflexivity|].
  apply (proj2 (proj2 (proj1 (proj2 (fetch_set_policy w dependencies "licenses" Horder))
                         unique_licenses Hret))).
  vm_compute. reflexivity.
Defined.

(** ** The loop of the entry point *)

Lemma events_bind_outcome {A B} P (m : M A) (f : A → M B) :
  events P m → (∀ a, outcome m = Ret a → events P (f a)) → events P (m ≫= f).
Proof.
  destruct m as [t [a|status|e]]; unfold events; intros Hm Hf.
  - rewrite bind_Ret. simpl in *. apply Forall_app. split; [exact Hm|].
    apply Hf. reflexivity.
  - exact Hm.
  - exact Hm.
Qed.

Lemma events_impl {A} (P Q : event → Prop) (m : M A) :
  (∀ e, P e → Q e) → events P m → events Q m.
Proof. intros HPQ H. unfold events in *. eapply Forall_impl; eauto. Qed.

Lemma events_not_elem_of {A} P (m : M A) e :
  events P m → ¬ P e → e ∉ trace m.
Proof.
  unfold events. rewrite Forall_forall. intros H Hne Hin. apply Hne, H, Hin.
Qed.

Lemma ret_bind {A B} (a : A) (f : A → M B) : (([], Ret a) : M A) ≫= f = f a.
Proof. rewrite bind_Ret. destruct (f a); reflexivity. Qed.

Lemma getitem_Some (d : dict) key v : d !! key = Some v → getitem d key = ([], Ret v).
Proof. intros H. unfold getitem. rewrite H. reflexivity. Qed.

Lemma silent_trace {A} (m : M A) : events (λ _, False) m → trace m = [].
Proof.
  unfold events. destruct (trace m) as [|e t]; [reflexivity|].
  intros H. apply Forall_cons in H as [[] _].
Qed.

(** [read_notices] records its call and nothing else. *)
Lemma read_notices_trace w (dependency : dict) :
  trace (read_notices w dependency) = [CallReadNotices dependency].
Proof.
  unfold read_notices, emit. rewrite bind_Ret.
  change (CallReadNotices dependency :: trace
            (name ← getitem dependency "name";
             if decide (name = VStr "hashlink") then
               mret ["Copyright (c) 2015 The Rust Project Developers"]
             else if decide (name = VStr "libloadorder") then
               mret ["Copyright (C) 2017 Oliver Hamlet"]
             else if decide (name = VStr "esplugin") then
               mret ["Copyright (C) 2017 Oliver Hamlet"]
             else
               manifest_path ← getitem dependency "manifest_path";
               match manifest_path with
               | VNone => raise TypeError
               | VStr manifest_path =>
                   match scandir w (Path.dirname manifest_path) with
                   | None => raise (FileNotFoundError (Path.dirname manifest_path))
                   | Some entries => mret (sorted_set (scan_crate entries))
                   end
               end)
          = [CallReadNotices dependency]).
  f_equal. apply silent_trace. repeat mstep.
Qed.

Lemma read_notices_exits_with_1 w (dependency : dict) :
  exits_with_1 (read_notices w dependency).
Proof. unfold read_notices. repeat mstep. Qed.

Lemma read_notices_Ret w (dependency : dict) notices :
  outcome (read_notices w dependency) = Ret notices →
  read_notices w dependency = ([CallReadNotices dependency], Ret notices).
Proof.
  intros H. pose proof (read_notices_trace w dependency) as Ht.
  destruct (read_notices w dependency) as [t r]. simpl in *. congruence.
Qed.

(** The pairs of the whitelist, as the values a record holds. *)
Definition whitelisted (name version : value) : Prop :=
  (name, version) ∈ (λ nv, (VStr nv.1, VStr nv.2)) <$> NO_NOTICES_WHITELIST.

Global Instance whitelisted_dec name version : Decision (whitelisted name version).
Proof. unfold whitelisted. apply _. Defined.

Lemma whitelisted_str n v :
  whitelisted (VStr n) (VStr v) ↔ (n, v) ∈ NO_NOTICES_WHITELIST.
Proof.
  unfold whitelisted. rewrite list_elem_of_fmap. split.
  - intros ([n' v'] & [= -> ->] & Hin). exact Hin.
  - intros Hin. exists (n, v). auto.
Qed.

(** A dependency the loop reads notices for: it is not one of libloot's own
    crates and its licences do not all waive the notice. *)
Definition needs_notices (dependency : dict) : Prop :=
  ∃ name licenses,
    dependency !! "name" = Some name
    ∧ name ∉ VStr <$> SKIPPABLE_CRATES
    ∧ outcome (parse_licenses dependency) = Ret licenses
    ∧ all_skippable licenses = false.

Lemma parse_licenses_outcome_Ret (dependency : dict) licenses :
  outcome (parse_licenses dependency) = Ret licenses →
  parse_licenses dependency = ([], Ret licenses)
  ∧ ∃ license, dependency !! "license" = Some license.
Proof.
  intros H. destruct (parse_licenses dependency) as [t r] eqn:Heq.
  simpl in H. subst r. destruct (parse_licenses_Ret _ _ _ Heq) as [-> Hl].
  auto.
Qed.

(** The loop passes over a dependency whose licences all waive the notice:
    the text is as before, and all that happens is a line on the output. *)
Lemma add_dependency_skippable w (dependency : dict) name licenses notices_rst :
  dependency !! "name" = Some name →
  outcome (parse_licenses dependency) = Ret licenses →
  all_skippable licenses = true →
  outcome (add_dependency w dependency notices_rst) = Ret notices_rst
  ∧ events (λ e, ∃ line, e = Stdout line) (add_dependency w dependency notices_rst).
Proof.
  intros Hn Hp Hskip.
  apply parse_licenses_outcome_Ret in Hp as [Hp [license Hl]].
  unfold add_dependency. rewrite (getitem_Some _ _ _ Hn), ret_bind.
  case_bool_decide; [split; [reflexivity|constructor]|].
  rewrite Hp, ret_bind, Hskip, (getitem_Some _ _ _ Hl), ret_bind.
  split; [reflexivity|]. repeat constructor. eauto.
Qed.

(** The loop at a dependency that needs notices and has none. *)
Lemma add_dependency_no_notices w (dependency : dict) name version notices_rst :
  needs_notices dependency →
  dependency !! "name" = Some name →
  dependency !! "version" = Some version →
  outcome (read_notices w dependency) = Ret [] →
  add_dependency w dependency notices_rst
  = if decide (whitelisted name version)
    then ([CallReadNotices dependency;
           Stdout ("Skipping dependency with no notices: " +:+ str name)],
          Ret notices_rst)
    else ([CallReadNotices dependency;
           Stderr ("Found dependency with no notices: " +:+ str name
                   +:+ " v" +:+ str version)],
          Exit 1).
Proof.
  intros (name' & licenses & Hn' & Hcrate & Hp & Hskip) Hn Hv Hr.
  rewrite Hn in Hn'. injection Hn' as <-.
  apply parse_licenses_outcome_Ret in Hp as [Hp _].
  apply read_notices_Ret in Hr.
  unfold add_dependency. rewrite (getitem_Some _ _ _ Hn), ret_bind.
  rewrite bool_decide_eq_false_2 by exact Hcrate.
  rewrite Hp, ret_bind, Hskip, Hr, bind_Ret. cbv beta iota.
  rewrite (getitem_Some _ _ _ Hv), ret_bind. fold (whitelisted name version).
  destruct (decide (whitelisted name version)) as [Hw|Hw].
  - rewrite bool_decide_eq_false_2 by (intros H; apply H, Hw). reflexivity.
  - rewrite bool_decide_eq_true_2 by exact Hw. reflexivity.
Qed.

Lemma add_dependency_exits_with_1 w dependency notices_rst :
  exits_with_1 (add_dependency w dependency notices_rst).
Proof.
  unfold add_dependency.
  apply exits_with_1_bind; [apply exits_with_1_getitem|]. intros name.
  case_bool_decide; [apply exits_with_1_mret|].
  apply exits_with_1_bind; [apply parse_licenses_exits_with_1|]. intros licenses.
  destruct (all_skippable licenses).
  { repeat mstep. }
  apply exits_with_1_bind; [apply read_notices_exits_with_1|]. intros notices.
  destruct notices; repeat mstep.
Qed.

(** What the loop does for one dependency: lines on the output and on the
    error stream, and a call of [read_notices] for that dependency when it
    needs notices. *)
Definition loop_event (dependency : dict) (e : event) : Prop :=
  (∃ line, e = Stdout line) ∨ (∃ line, e = Stderr line)
  ∨ (e = CallReadNotices dependency ∧ needs_notices dependency).

Lemma add_dependency_events w dependency notices_rst :
  events (loop_event dependency) (add_dependency w dependency notices_rst).
Proof.
  unfold add_dependency.
  apply events_bind_outcome; [apply events_getitem|]. intros name Hname.
  case_bool_decide as Hcrate; [apply events_mret|].
  apply events_bind_outcome.
  { eapply events_impl; [|apply parse_licenses_events].
    intros e He. right. left. exact He. }
  intros licenses Hp.
  destruct (all_skippable licenses) eqn:Hskip.
  { apply events_bind; [apply events_getitem|]. intros license.
    apply events_bind; [apply events_emit; left; eauto|]. intros _.
    apply events_mret. }
  assert (Hneeds : needs_notices dependency).
  { exists name, licenses. split; [|auto].
    unfold getitem in Hname. destruct (dependency !! "name"); [|discriminate].
    simpl in Hname. congruence. }
  apply events_bind.
  { unfold events. rewrite read_notices_trace. constructor; [|constructor].
    right. right. auto. }
  intros notices. destruct notices.
  - apply events_bind; [apply events_getitem|]. intros version.
    case_bool_decide.
    + apply events_bind; [apply events_emit; right; left; eauto|]. intros _.
      apply events_exit.
    + apply events_bind; [apply events_emit; left; eauto|]. intros _.
      apply events_mret.
  - apply events_bind; [apply events_getitem|]. intros version. apply events_mret.
Qed.

Lemma add_dependencies_cons w dependency rest notices_rst :
  add_dependencies w (dependency :: rest) notices_rst
  = (add_dependency w dependency notices_rst ≫= add_dependencies w rest).
Proof. reflexivity. Qed.

Lemma add_dependencies_exits_with_1 w dependencies notices_rst :
  exits_with_1 (add_dependencies w dependencies notices_rst).
Proof.
  revert notices_rst. induction dependencies as [|d rest IH]; intros notices_rst.
  - apply exits_with_1_mret.
  - rewrite add_dependencies_cons.
    apply exits_with_1_bind; [apply add_dependency_exits_with_1|]. exact IH.
Qed.

Lemma add_dependencies_events w dependencies notices_rst :
  events (λ e, ∃ d, d ∈ dependencies ∧ loop_event d e)
    (add_dependencies w dependencies notices_rst).
Proof.
  revert notices_rst. induction dependencies as [|d rest IH]; intros notices_rst.
  - apply events_mret.
  - rewrite add_dependencies_cons. apply events_bind.
    + eapply events_impl; [|apply add_dependency_events].
      intros e He. exists d. split; [left|exact He].
    + intros notices_rst'. eapply events_impl; [|apply IH].
      intros e (d' & Hd' & He). exists d'. split; [right; exact Hd'|exact He].
Qed.

Lemma add_dependencies_fatal w (dependency : dict) dependencies notices_rst :
  dependency ∈ dependencies →
  (∀ notices_rst', fatal (add_dependency w dependency notices_rst')) →
  fatal (add_dependencies w dependencies notices_rst).
Proof.
  intros Hin Hf. revert notices_rst.
  induction dependencies as [|d rest IH]; intros notices_rst; [inversion Hin|].
  rewrite add_dependencies_cons. apply elem_of_cons in Hin as [<-|Hin].
  - apply fatal_bind. apply Hf.
  - apply fatal_bind_all; [apply add_dependency_exits_with_1|].
    intros notices_rst'. apply IH. exact Hin.
Qed.

(** ** The run *)

Lemma licenses_path_not_notices license :
  Path.join (Path.join output_dir "licenses") license ≠ notices_rst_path.
Proof.
  unfold Path.join at 1.
  destruct (Str.startswith "/" license) eqn:Hslash.
  - intros ->. vm_compute in Hslash. discriminate Hslash.
  - intros H. vm_compute in H. discriminate H.
Qed.

(** What [download_licenses] does: lines on the output and the error stream,
    URLs opened, and files written under the directory of the licences. *)
Definition download_event (output_directory : string) (e : event) : Prop :=
  (∃ line, e = Stdout line) ∨ (∃ line, e = Stderr line) ∨ (∃ url, e = UrlOpen url)
  ∨ (∃ license content, e = WriteFile (Path.join output_directory license) content).

Lemma download_license_events w output_directory license :
  events (download_event output_directory)
    (download_license w output_directory license).
Proof.
  unfold download_license.
  destruct (bool_decide (license ∈ SKIPPABLE_LICENSE_FILES)); [apply events_mret|].
  apply events_bind; [apply events_emit; left; eauto|]. intros _.
  apply events_bind; [apply events_emit; right; right; left; eauto|]. intros _.
  destruct (urlopen w (license_url license)) as [e|r]; [apply events_raise|].
  destruct (decide (status r ≠ 200%Z)).
  - apply events_bind; [apply events_emit; right; left; eauto|]. intros _.
    apply events_exit.
  - apply events_emit. right. right. right. eauto.
Qed.

Lemma download_licenses_events w dependencies output_directory :
  events (download_event output_directory)
    (download_licenses w dependencies output_directory).
Proof.
  unfold download_licenses. apply events_bind.
  - eapply events_impl; [|apply collect_licenses_events].
    intros e He. right. left. exact He.
  - intros unique_licenses. apply for_each_events. intros license _.
    apply download_license_events.
Qed.

Lemma download_licenses_exits_with_1 w dependencies output_directory :
  exits_with_1 (download_licenses w dependencies output_directory).
Proof.
  unfold download_licenses.
  apply exits_with_1_bind; [apply collect_licenses_exits_with_1|].
  intros unique_licenses. apply for_each_exits_with_1.
  intros license. apply download_license_exits_with_1.
Qed.

(** The events of a run, but for the write of the notices at its end. *)
Definition run_event (dependencies : list dict) (e : event) : Prop :=
  download_event (Path.join output_dir "licenses") e
  ∨ ∃ d, d ∈ dependencies ∧ loop_event d e.

Lemma run_event_not_notices dependencies e content :
  run_event dependencies e → e ≠ WriteFile notices_rst_path content.
Proof.
  intros [[(l & ->)|[(l & ->)|[(u & ->)|(license & c & ->)]]]
         |(d & _ & [(l & ->)|[(l & ->)|[-> _]]])]; try discriminate.
  intros [= H _]. exact (licenses_path_not_notices _ H).
Qed.

(** A run whose loop does not return ends before the write of the notices. *)
Lemma run_loop_fatal w dependencies :
  (∀ notices_rst, fatal (add_dependencies w dependencies notices_rst)) →
  fatal (run w dependencies) ∧ events (run_event dependencies) (run w dependencies).
Proof.
  intros Hf. unfold run. split.
  - apply fatal_bind_all; [apply download_licenses_exits_with_1|]. intros _.
    apply fatal_bind. apply Hf.
  - apply events_bind.
    + eapply events_impl; [|apply download_licenses_events].
      intros e He. left. exact He.
    + intros _. unfold events.
      rewrite (proj2 (fatal_bind _ _ (Hf (header w)))).
      eapply events_impl; [|apply add_dependencies_events].
      intros e He. right. exact He.
Qed.

(** In every run, a call of [read_notices] is for a dependency that needs
    notices. *)
Lemma run_calls w dependencies (dependency : dict) :
  CallReadNotices dependency ∈ trace (run w dependencies) →
  needs_notices dependency.
Proof.
  assert (Hev : events (λ e, run_event dependencies e ∨ ∃ c, e = WriteFile notices_rst_path c)
                  (run w dependencies)).
  { unfold run. apply events_bind.
    - eapply events_impl; [|apply download_licenses_events].
      intros e He. left. left. exact He.
    - intros _. apply events_bind.
      + eapply events_impl; [|apply add_dependencies_events].
        intros e He. left. right. exact He.
      + intros notices_rst. apply events_emit. right. eauto. }
  unfold events in Hev. rewrite Forall_forall in Hev. intros Hin.
  destruct (Hev _ Hin)
    as [[[(l & H)|[(l & H)|[(u & H)|(license & c & H)]]]
        |(d & _ & [(l & H)|[(l & H)|[H Hneeds]]])]|(c & H)];
    try discriminate H.
  injection H as <-. exact Hneeds.
Qed.

(** The notices are written only by a run that returns. *)
Lemma notices_written_only_on_success w dependencies content :
  WriteFile notices_rst_path content ∈ trace (run w dependencies) →
  outcome (run w dependencies) = Ret tt.
Proof.
  unfold run.
  pose proof (download_licenses_events w dependencies (Path.join output_dir "licenses"))
    as Hdl.
  pose proof (add_dependencies_events w dependencies (header w)) as Hloop.
  destruct (download_licenses w dependencies (Path.join output_dir "licenses"))
    as [t1 [[]|s1|e1]].
  2,3: intros Hin; exfalso;
       eapply (run_event_not_notices dependencies); [|reflexivity];
       left; unfold events in Hdl; rewrite Forall_forall in Hdl; apply Hdl; exact Hin.
  rewrite bind_Ret.
  destruct (add_dependencies w dependencies (header w)) as [t2 [notices_rst|s2|e2]].
  - intros _. reflexivity.
  - intros Hin. exfalso. simpl in Hin. apply elem_of_app in Hin as [Hin|Hin].
    + eapply (run_event_not_notices dependencies); [|reflexivity].
      left. unfold events in Hdl. rewrite Forall_forall in Hdl. apply Hdl. exact Hin.
    + eapply (run_event_not_notices dependencies); [|reflexivity].
      right. unfold events in Hloop. rewrite Forall_forall in Hloop.
      apply Hloop. exact Hin.
  - intros Hin. exfalso. simpl in Hin. apply elem_of_app in Hin as [Hin|Hin].
    + eapply (run_event_not_notices dependencies); [|reflexivity].
      left. unfold events in Hdl. rewrite Forall_forall in Hdl. apply Hdl. exact Hin.
    + eapply (run_event_not_notices dependencies); [|reflexivity].
      right. unfold events in Hloop. rewrite Forall_forall in Hloop.
      apply Hloop. exact Hin.
Qed.

(** C5: a dependency that needs notices and for which [read_notices] returns
    the empty list.  With its name and version in the whitelist the loop
    prints a line and goes on with the text unchanged.  Otherwise the loop
    prints to the error stream and calls [exit(1)]: a run over dependencies
    that contain it does not return, its exit status is 1, and the notices
    are not written; they are written only by a run that returns. *)
Theorem empty_notices_policy (w : world) (dependency : dict) (name version : value) :
  needs_notices dependency →
  dependency !! "name" = Some name →
  dependency !! "version" = Some version →
  outcome (read_notices w dependency) = Ret [] →
  (whitelisted name version →
   ∀ notices_rst,
     add_dependency w dependency notices_rst
     = ([CallReadNotices dependency;
         Stdout ("Skipping dependency with no notices: " +:+ str name)],
        Ret notices_rst))
  ∧ (¬ whitelisted name version →
     (∀ notices_rst,
        add_dependency w dependency notices_rst
        = ([CallReadNotices dependency;
            Stderr ("Found dependency with no notices: " +:+ str name
                    +:+ " v" +:+ str version)],
           Exit 1))
     ∧ ∀ dependencies,
         dependency ∈ dependencies →
         fatal (run w dependencies)
         ∧ exit_status (outcome (run w dependencies)) = 1%Z
         ∧ ∀ content, WriteFile notices_rst_path content ∉ trace (run w dependencies))
  ∧ (∀ dependencies content,
       WriteFile notices_rst_path content ∈ trace (run w dependencies) →
       outcome (run w dependencies) = Ret tt).
Proof.
  intros Hneeds Hn Hv Hr.
  pose proof (add_dependency_no_notices w dependency name version) as Hstep.
  split; [|split].
  - intros Hw notices_rst. rewrite (Hstep notices_rst Hneeds Hn Hv Hr).
    destruct (decide (whitelisted name version)); [reflexivity|contradiction].
  - intros Hw.
    assert (Hfail : ∀ notices_rst,
      add_dependency w dependency notices_rst
      = ([CallReadNotices dependency;
          Stderr ("Found dependency with no notices: " +:+ str name
                  +:+ " v" +:+ str version)],
         Exit 1)).
    { intros notices_rst. rewrite (Hstep notices_rst Hneeds Hn Hv Hr).
      destruct (decide (whitelisted name version)); [contradiction|reflexivity]. }
    split; [exact Hfail|].
    intros dependencies Hin.
    assert (Hf : ∀ notices_rst, fatal (add_dependencies w dependencies notices_rst)).
    { intros notices_rst. apply (add_dependencies_fatal w dependency); [exact Hin|].
      intros notices_rst'. rewrite Hfail. reflexivity. }
    destruct (run_loop_fatal w dependencies Hf) as [Hfatal Hev].
    split; [exact Hfatal|]. split; [apply fatal_exit_status; exact Hfatal|].
    intros content Hc.
    unfold events in Hev. rewrite Forall_forall in Hev.
    exact (run_event_not_notices _ _ content (Hev _ Hc) eq_refl).
  - intros dependencies content. apply notices_written_only_on_success.
Qed.

(** A crate with the licence [MIT], a directory without licence files and a
    name that the whitelist does not have. *)
Lemma empty_notices_policy_witness :
  let w := {| scandir := λ _, Some [];
              urlopen := λ _, inr {| status := 200; reason := "OK"; read := "text" |};
              now := ""; set_order := elements |} in
  let dependency := record Example.D in
  add_dependency w dependency ""
  = ([CallReadNotices dependency; Stderr "Found dependency with no notices: D v1.0.0"],
     Exit 1)
  ∧ exit_status (outcome (run w [record Example.B; dependency])) = 1%Z
  ∧ ∀ content,
      WriteFile notices_rst_path content ∉ trace (run w [record Example.B; dependency]).
Proof.
  intros w dependency.
  assert (Hneeds : needs_notices dependency).
  { exists (VStr "D"), ["MIT"]. split; [reflexivity|].
    split; [apply (bool_decide_eq_true_1 _); vm_compute; reflexivity|].
    split; vm_compute; reflexivity. }
  assert (Hnot : ¬ whitelisted (VStr "D") (VStr "1.0.0"))
    by (apply (bool_decide_eq_true_1 _); vm_compute; reflexivity).
  destruct (proj1 (proj2 (empty_notices_policy w dependency (VStr "D") (VStr "1.0.0")
                            Hneeds eq_refl eq_refl eq_refl)) Hnot)
    as [Hstep Hrun].
  split; [apply Hstep|].
  destruct (Hrun [record Example.B; dependency]) as (_ & Hstatus & Hwrite).
  { apply list_elem_of_further, list_elem_of_here. }
  split; [exact Hstatus|exact Hwrite].
Defined.

(** ** Dependencies whose licences waive the notice *)

Lemma add_dependencies_without w (dependency : dict) before after notices_rst :
  (∀ notices_rst', outcome (add_dependency w dependency notices_rst') = Ret notices_rst') →
  outcome (add_dependencies w (before ++ dependency :: after) notices_rst)
  = outcome (add_dependencies w (before ++ after) notices_rst).
Proof.
  intros Hskip. revert notices_rst.
  induction before as [|d before IH]; intros notices_rst.
  - simpl app. rewrite add_dependencies_cons.
    specialize (Hskip notices_rst).
    destruct (add_dependency w dependency notices_rst) as [t r].
    simpl in Hskip. subst r. rewrite bind_Ret. reflexivity.
  - simpl app. rewrite !add_dependencies_cons.
    destruct (add_dependency w d notices_rst) as [t [notices_rst'|s|e]].
    + rewrite !bind_Ret. apply IH.
    + reflexivity.
    + reflexivity.
Qed.

(** C6: a dependency all of whose licences are in the list that waives the
    notice.  The loop passes over it with the text unchanged, printing at
    most a line on the output; no run calls [read_notices] for it; and the
    text the loop hands to the write is the one of the dependencies without
    it. *)
Theorem skippable_license_is_skipped (w : world) (dependency : dict) (name : value)
    (licenses : list string) :
  dependency !! "name" = Some name →
  outcome (parse_licenses dependency) = Ret licenses →
  Forall (λ license, license ∈ SKIPPABLE_NOTICE_LICENSES) licenses →
  (∀ notices_rst,
     outcome (add_dependency w dependency notices_rst) = Ret notices_rst
     ∧ events (λ e, ∃ line, e = Stdout line) (add_dependency w dependency notices_rst))
  ∧ (∀ dependencies, CallReadNotices dependency ∉ trace (run w dependencies))
  ∧ (∀ before after notices_rst,
       outcome (add_dependencies w (before ++ dependency :: after) notices_rst)
       = outcome (add_dependencies w (before ++ after) notices_rst)).
Proof.
  intros Hn Hp Hfree. apply all_skippable_spec in Hfree.
  assert (Hstep : ∀ notices_rst,
     outcome (add_dependency w dependency notices_rst) = Ret notices_rst
     ∧ events (λ e, ∃ line, e = Stdout line) (add_dependency w dependency notices_rst)).
  { intros notices_rst. eapply add_dependency_skippable; eauto. }
  split; [exact Hstep|]. split.
  - intros dependencies Hin.
    apply run_calls in Hin as (name' & licenses' & _ & _ & Hp' & Hskip').
    rewrite Hp in Hp'. injection Hp' as <-. congruence.
  - intros before after notices_rst. apply add_dependencies_without.
    intros notices_rst'. apply Hstep.
Qed.

(** A run over a crate under [Zlib] between two crates under [MIT]. *)
Lemma skippable_license_is_skipped_witness :
  let w := {| scandir := λ _, Some [("LICENSE", File "Copyright (c) 2020 Jane Doe")];
              urlopen := λ _, inr {| status := 200; reason := "OK"; read := "text" |};
              now := ""; set_order := elements |} in
  let zlib := record (Package.mk "Z" "0.1.0" (VStr "Zlib") "/src/Z/Cargo.toml" []) in
  outcome (run w [record Example.B; zlib; record Example.D]) = Ret tt
  ∧ CallReadNotices zlib ∉ trace (run w [record Example.B; zlib; record Example.D])
  ∧ outcome (add_dependencies w [record Example.B; zlib; record Example.D] "")
    = outcome (add_dependencies w [record Example.B; record Example.D] "").
Proof.
  intros w zlib.
  destruct (skippable_license_is_skipped w zlib (VStr "Z") ["Zlib"])
    as (_ & Hcalls & Hwithout).
  { reflexivity. }
  { vm_compute. reflexivity. }
  { repeat constructor. }
  split; [vm_compute; reflexivity|]. split; [apply Hcalls|].
  apply (Hwithout [record Example.B] [record Example.D]).
Defined.

(** ** read_notices: the lines that are notices *)

(** [needle] occurs in [hay]. *)
Definition substring (needle hay : string) : Prop :=
  ∃ before after, hay = before +:+ needle +:+ after.

(** Four decimal digits in a row occur in [line]. *)
Definition has_year (line : string) : Prop :=
  ∃ before d1 d2 d3 d4 after,
    line = before +:+ String d1 (String d2 (String d3 (String d4 after)))
    ∧ Str.isdigit d1 = true ∧ Str.isdigit d2 = true
    ∧ Str.isdigit d3 = true ∧ Str.isdigit d4 = true.

(** The test on a line, in words: lower-cased it has [copyright], and it has
    [(c)] lower-cased, or the copyright sign as it is, or a year. *)
Definition notice_line (line : string) : Prop :=
  substring "copyright" (Str.lower line)
  ∧ (substring "(c)" (Str.lower line)
     ∨ substring COPYRIGHT_SIGN line
     ∨ has_year line).

(** The name of an entry, lower-cased, has [license] or [copying]. *)
Definition license_name (name : string) : Prop :=
  substring "license" (Str.lower name) ∨ substring "copying" (Str.lower name).

(** The files [read_notices] reads: the regular files among the entries with
    such a name, and the regular files directly inside the directories among
    them. *)
Definition scanned (entries : list DirEntry) (content : string) : Prop :=
  (∃ name, (name, File content) ∈ entries ∧ license_name name)
  ∨ (∃ name inner inner_name,
       (name, Dir inner) ∈ entries ∧ license_name name
       ∧ (inner_name, File content) ∈ inner).

(** A line without the line feed at its end. *)
Definition chomp (line : string) : string :=
  match String.rev line with
  | String c rest => if decide (c = LF) then String.rev rest else line
  | "" => line
  end.

Lemma append_eq_nil s t : s +:+ t = "" → s = "" ∧ t = "".
Proof. destruct s; [rewrite append_nil; auto|rewrite append_cons; discriminate]. Qed.

Lemma startswith_spec needle hay :
  Str.startswith needle hay = true ↔ ∃ after, hay = needle +:+ after.
Proof.
  revert hay. induction needle as [|a needle IH]; intros hay.
  - simpl. split; [intros _; exists hay; reflexivity|reflexivity].
  - destruct hay as [|b hay]; simpl.
    + split; [discriminate|]. intros [after H]. rewrite append_cons in H. discriminate H.
    + destruct (decide (a = b)) as [->|Hne].
      * rewrite IH. split.
        -- intros [after ->]. exists after. reflexivity.
        -- intros [after H]. rewrite append_cons in H. injection H as ->. eauto.
      * split; [discriminate|]. intros [after H]. rewrite append_cons in H.
        injection H as -> _. contradiction.
Qed.

Lemma contains_spec needle hay :
  Str.contains needle hay = true ↔ substring needle hay.
Proof.
  unfold substring. induction hay as [|c hay IH].
  - simpl. rewrite orb_false_r, startswith_spec. split.
    + intros [after H]. exists "", after. exact H.
    + intros (before & after & H). symmetry in H.
      apply append_eq_nil in H as [-> H]. exists after. rewrite H. reflexivity.
  - change (Str.contains needle (String c hay))
      with (Str.startswith needle (String c hay) || Str.contains needle hay).
    rewrite orb_true_iff, startswith_spec, IH. split.
    + intros [[after H]|(before & after & ->)].
      * exists "", after. exact H.
      * exists (String c before), after. reflexivity.
    + intros ([|c' before] & after & H).
      * left. exists after. exact H.
      * right. rewrite append_cons in H. injection H as -> ->. eauto.
Qed.

Lemma digits_at_4_spec s :
  Str.digits_at 4 s = true
  ↔ ∃ d1 d2 d3 d4 after,
      s = String d1 (String d2 (String d3 (String d4 after)))
      ∧ Str.isdigit d1 = true ∧ Str.isdigit d2 = true
      ∧ Str.isdigit d3 = true ∧ Str.isdigit d4 = true.
Proof.
  split.
  - destruct s as [|d1 [|d2 [|d3 [|d4 after]]]]; simpl;
      rewrite ?andb_false_r; try discriminate.
    rewrite andb_true_r, !andb_true_iff. intros (H1 & H2 & H3 & H4).
    exists d1, d2, d3, d4, after. auto.
  - intros (d1 & d2 & d3 & d4 & after & -> & H1 & H2 & H3 & H4).
    simpl. rewrite H1, H2, H3, H4. reflexivity.
Qed.

Lemma YEAR_REGEX_spec line : YEAR_REGEX line = true ↔ has_year line.
Proof.
  unfold has_year. induction line as [|c line IH].
  - split.
    + intros H. simpl in H. discriminate H.
    + intros (before & d1 & d2 & d3 & d4 & after & H & _). symmetry in H.
      apply append_eq_nil in H as [_ H]. discriminate H.
  - change (YEAR_REGEX (String c line))
      with (Str.digits_at 4 (String c line) || YEAR_REGEX line).
    rewrite orb_true_iff, digits_at_4_spec, IH. split.
    + intros [(d1 & d2 & d3 & d4 & after & H & Hd)
             |(before & d1 & d2 & d3 & d4 & after & -> & Hd)].
      * exists "", d1, d2, d3, d4, after. auto.
      * exists (String c before), d1, d2, d3, d4, after. auto.
    + intros ([|c' before] & d1 & d2 & d3 & d4 & after & H & Hd).
      * left. exists d1, d2, d3, d4, after. auto.
      * right. rewrite append_cons in H. injection H as -> ->.
        exists before, d1, d2, d3, d4, after. auto.
Qed.

Lemma is_notice_line_spec line : is_notice_line line = true ↔ notice_line line.
Proof.
  unfold is_notice_line, notice_line.
  rewrite andb_true_iff, !orb_true_iff, !contains_spec, YEAR_REGEX_spec. tauto.
Qed.

Lemma license_filename_spec name : license_filename name = true ↔ license_name name.
Proof.
  unfold license_filename, license_name.
  rewrite orb_true_iff, !contains_spec. tauto.
Qed.

Lemma elem_of_scan_lines lines s :
  s ∈ scan_lines lines
  ↔ ∃ line, line ∈ lines ∧ notice_line line ∧ s = Str.strip line.
Proof.
  induction lines as [|line lines IH]; simpl.
  - split; [intros H; inversion H|]. intros (line & H & _). inversion H.
  - destruct (is_notice_line line) eqn:Hline.
    + rewrite elem_of_cons, IH. split.
      * intros [->|(line' & Hin & Hn & ->)].
        -- exists line. split; [left|]. split; [|reflexivity].
           apply is_notice_line_spec. exact Hline.
        -- exists line'. split; [right; exact Hin|]. auto.
      * intros (line' & Hin & Hn & ->). apply elem_of_cons in Hin as [->|Hin].
        -- left. reflexivity.
        -- right. eauto.
    + rewrite IH. split.
      * intros (line' & Hin & Hn & ->). exists line'. split; [right; exact Hin|]. auto.
      * intros (line' & Hin & Hn & ->). apply elem_of_cons in Hin as [->|Hin].
        -- apply is_notice_line_spec in Hn. congruence.
        -- eauto.
Qed.

Lemma elem_of_scan_directory inner s :
  s ∈ scan_directory inner
  ↔ ∃ inner_name content,
      (inner_name, File content) ∈ inner ∧ s ∈ read_notices_from_file content.
Proof.
  induction inner as [|[inner_name n] inner IH].
  - simpl. split; [intros H; inversion H|]. intros (? & ? & H & _). inversion H.
  - destruct n as [content|entries|].
    + change (scan_directory ((inner_name, File content) :: inner))
        with (read_notices_from_file content ++ scan_directory inner).
      rewrite elem_of_app, IH. split.
      * intros [H|(inner_name' & content' & Hin & H)].
        -- exists inner_name, content. split; [left|exact H].
        -- exists inner_name', content'. split; [right; exact Hin|exact H].
      * intros (inner_name' & content' & Hin & H).
        apply elem_of_cons in Hin as [[= -> ->]|Hin]; [left; exact H|right; eauto].
    + change (scan_directory ((inner_name, Dir entries) :: inner))
        with (scan_directory inner).
      rewrite IH. split.
      * intros (inner_name' & content' & Hin & H).
        exists inner_name', content'. split; [right; exact Hin|exact H].
      * intros (inner_name' & content' & Hin & H).
        apply elem_of_cons in Hin as [[=]|Hin]. eauto.
    + change (scan_directory ((inner_name, Other) :: inner))
        with (scan_directory inner).
      rewrite IH. split.
      * intros (inner_name' & content' & Hin & H).
        exists inner_name', content'. split; [right; exact Hin|exact H].
      * intros (inner_name' & content' & Hin & H).
        apply elem_of_cons in Hin as [[=]|Hin]. eauto.
Qed.

Lemma scanned_cons name n entries content :
  scanned ((name, n) :: entries) content
  ↔ (license_name name
     ∧ (n = File content
        ∨ ∃ inner inner_name, n = Dir inner ∧ (inner_name, File content) ∈ inner))
    ∨ scanned entries content.
Proof.
  unfold scanned. split.
  - intros [(name' & Hin & Hl)|(name' & inner & inner_name & Hin & Hl & Hc)];
      apply elem_of_cons in Hin as [[= -> <-]|Hin]; eauto 10.
  - intros [[Hl [->|(inner & inner_name & -> & Hc)]]
           |[(name' & Hin & Hl)|(name' & inner & inner_name & Hin & Hl & Hc)]].
    + left. exists name. split; [left|exact Hl].
    + right. exists name, inner, inner_name. split; [left|]. auto.
    + left. exists name'. split; [right; exact Hin|exact Hl].
    + right. exists name', inner, inner_name. split; [right; exact Hin|]. auto.
Qed.

Lemma scanned_nil content : ¬ scanned [] content.
Proof.
  intros [(name & Hin & _)|(name & inner & inner_name & Hin & _)]; inversion Hin.
Qed.

Lemma elem_of_scan_crate entries s :
  s ∈ scan_crate entries
  ↔ ∃ content, scanned entries content ∧ s ∈ read_notices_from_file content.
Proof.
  induction entries as [|[name n] entries IH].
  - simpl. split; [intros H; inversion H|].
    intros (content & H & _). destruct (scanned_nil _ H).
  - change (scan_crate ((name, n) :: entries))
      with ((if license_filename name then
               match n with
               | File content => read_notices_from_file content
               | Dir inner => scan_directory inner
               | Other => []
               end
             else []) ++ scan_crate entries).
    rewrite elem_of_app, IH. setoid_rewrite scanned_cons.
    destruct (license_filename name) eqn:Hname.
    + apply license_filename_spec in Hname. split.
      * intros [H|(content & Hs & H)]; [|eauto].
        destruct n as [content|inner|]; [| |inversion H].
        -- exists content. split; [left|exact H]. auto.
        -- apply elem_of_scan_directory in H as (inner_name & content & Hin & H).
           exists content. split; [left|exact H]. split; [exact Hname|].
           right. eauto.
      * intros (content & [[_ [->|(inner & inner_name & -> & Hin)]]|Hs] & H).
        -- left. exact H.
        -- left. apply elem_of_scan_directory. eauto.
        -- right. eauto.
    + assert (Hno : ¬ license_name name).
      { intros H. apply license_filename_spec in H. congruence. }
      split.
      * intros [H|(content & Hs & H)]; [inversion H|eauto].
      * intros (content & [[Hl _]|Hs] & H); [contradiction|right; eauto].
Qed.

(** The list [sorted_set] returns has the elements of the list it is given,
    each once, in ascending order. *)
Lemma sorted_set_spec notices :
  (∀ s, s ∈ sorted_set notices ↔ s ∈ notices)
  ∧ NoDup (sorted_set notices)
  ∧ StronglySorted String.le (sorted_set notices).
Proof.
  unfold sorted_set. split; [|split].
  - intros s. rewrite merge_sort_Permutation. apply elem_of_remove_dups.
  - rewrite merge_sort_Permutation. apply NoDup_remove_dups.
  - apply StronglySorted_merge_sort; apply _.
Qed.


(** ** read_notices: what it returns *)

Module Notices.

(** A crate whose only licence file holds one indented line. *)
Definition indented : string := "  Copyright (c) 2020 Jane Doe" +:+ NL.

Definition licence (content : string) : list DirEntry := [("LICENSE", File content)].

(** The directory of every crate is [entries]. *)
Definition crate (entries : list DirEntry) : world :=
  {| scandir := λ _, Some entries;
     urlopen := λ url, inl (URLError url);
     now := "";
     set_order := elements |}.

Definition dependency : dict := record Example.B.

End Notices.

(** The lines of the read files that pass the test, without the line feed at
    their end: what the extraction would collect if it kept the lines as they
    are. *)
Definition matching_lines (entries : list DirEntry) (s : string) : Prop :=
  ∃ content line,
    scanned entries content ∧ line ∈ readlines content
    ∧ notice_line line ∧ s = chomp line.

(** C3, as stated: for a licence file with the one line
    [  Copyright (c) 2020 Jane Doe], indented by two spaces, the notice
    returned is the line without the indentation, which is no line of the
    file: the returned list is not the list of the matching lines. *)
Lemma read_notices_strips_lines :
  let entries := Notices.licence Notices.indented in
  outcome (read_notices (Notices.crate entries) Notices.dependency)
  = Ret ["Copyright (c) 2020 Jane Doe"]
  ∧ matching_lines entries "  Copyright (c) 2020 Jane Doe"
  ∧ ¬ matching_lines entries "Copyright (c) 2020 Jane Doe"
  ∧ ¬ (∀ s, s ∈ ["Copyright (c) 2020 Jane Doe"] ↔ matching_lines entries s).
Proof.
  intros entries.
  assert (Hfile : ∀ content, scanned entries content → content = Notices.indented).
  { intros content [(name & Hin & _)|(name & inner & inner_name & Hin & _)].
    - apply list_elem_of_singleton in Hin. congruence.
    - apply list_elem_of_singleton in Hin. discriminate Hin. }
  assert (Hyes : matching_lines entries "  Copyright (c) 2020 Jane Doe").
  { exists Notices.indented, Notices.indented. split; [|split; [|split]].
    - left. exists "LICENSE". split; [apply list_elem_of_here|].
      apply license_filename_spec. vm_compute. reflexivity.
    - vm_compute. apply list_elem_of_here.
    - apply is_notice_line_spec. vm_compute. reflexivity.
    - vm_compute. reflexivity. }
  assert (Hno : ¬ matching_lines entries "Copyright (c) 2020 Jane Doe").
  { intros (content & line & Hs & Hline & _ & Heq).
    apply Hfile in Hs. subst content.
    vm_compute in Hline. apply list_elem_of_singleton in Hline. subst line.
    vm_compute in Heq. discriminate Heq. }
  split; [vm_compute; reflexivity|]. split; [exact Hyes|]. split; [exact Hno|].
  intros H. apply Hno, H. apply list_elem_of_here.
Qed.

(** C3, amended: for a dependency outside the three hard-coded names, with a
    manifest path whose directory can be listed, [read_notices] returns the
    stripped text of the lines of the read files that pass the test, and of
    no other line: each once, in ascending order.  A licence file with the
    line [Copyright (c) 2020 Jane Doe] gives that notice alone; a line
    [Some unrelated text] gives none; the same line in two files gives one
    notice. *)
Theorem read_notices_collects_stripped_lines :
  (∀ w (dependency : dict) name manifest_path entries,
     dependency !! "name" = Some name →
     name ∉ [VStr "hashlink"; VStr "libloadorder"; VStr "esplugin"] →
     dependency !! "manifest_path" = Some (VStr manifest_path) →
     scandir w (Path.dirname manifest_path) = Some entries →
     ∃ notices,
       read_notices w dependency = ([CallReadNotices dependency], Ret notices)
       ∧ (∀ s, s ∈ notices
               ↔ ∃ content line,
                   scanned entries content ∧ line ∈ readlines content
                   ∧ notice_line line ∧ s = Str.strip line)
       ∧ NoDup notices
       ∧ StronglySorted String.le notices)
  ∧ outcome (read_notices
               (Notices.crate (Notices.licence ("Copyright (c) 2020 Jane Doe" +:+ NL)))
               Notices.dependency)
    = Ret ["Copyright (c) 2020 Jane Doe"]
  ∧ outcome (read_notices
               (Notices.crate
                  (Notices.licence ("Some unrelated text" +:+ NL
                                    +:+ "Copyright (c) 2020 Jane Doe" +:+ NL)))
               Notices.dependency)
    = Ret ["Copyright (c) 2020 Jane Doe"]
  ∧ ¬ notice_line "Some unrelated text"
  ∧ outcome (read_notices
               (Notices.crate
                  [("LICENSE-MIT", File ("Copyright (c) 2020 Jane Doe" +:+ NL));
                   ("LICENSE-APACHE",
                    File ("Copyright 2019 John Roe" +:+ NL
                          +:+ "Copyright (c) 2020 Jane Doe" +:+ NL))])
               Notices.dependency)
    = Ret ["Copyright (c) 2020 Jane Doe"; "Copyright 2019 John Roe"].
Proof.
  split; [|split; [|split; [|split]]].
  - intros w dependency name manifest_path entries Hn Hname Hm Hdir.
    exists (sorted_set (scan_crate entries)).
    destruct (sorted_set_spec (scan_crate entries)) as (Hmem & Hnd & Hsorted).
    split; [|split; [|split; [exact Hnd|exact Hsorted]]].
    + unfold read_notices, emit. rewrite bind_Ret.
      rewrite (getitem_Some _ _ _ Hn), ret_bind.
      destruct (decide (name = VStr "hashlink")) as [->|_];
        [exfalso; apply Hname; apply list_elem_of_here|].
      destruct (decide (name = VStr "libloadorder")) as [->|_];
        [exfalso; apply Hname; apply list_elem_of_further, list_elem_of_here|].
      destruct (decide (name = VStr "esplugin")) as [->|_];
        [exfalso; apply Hname;
         apply list_elem_of_further, list_elem_of_further, list_elem_of_here|].
      rewrite (getitem_Some _ _ _ Hm), ret_bind, Hdir. reflexivity.
    + intros s. rewrite Hmem, elem_of_scan_crate. split.
      * intros (content & Hs & Hin). unfold read_notices_from_file in Hin.
        apply elem_of_scan_lines in Hin as (line & Hline & Hn' & ->).
        exists content, line. auto.
      * intros (content & line & Hs & Hline & Hn' & ->).
        exists content. split; [exact Hs|]. unfold read_notices_from_file.
        apply elem_of_scan_lines. eauto.
  - vm_compute. reflexivity.
  - vm_compute. reflexivity.
  - intros H. apply is_notice_line_spec in H. vm_compute in H. discriminate H.
  - vm_compute. reflexivity.
Qed.

(** The notices of a crate with an indented notice in its licence file. *)
Lemma read_notices_collects_stripped_lines_witness :
  let entries := Notices.licence Notices.indented in
  ∃ notices,
    read_notices (Notices.crate entries) Notices.dependency
    = ([CallReadNotices Notices.dependency], Ret notices)
    ∧ (∀ s, s ∈ notices
            ↔ ∃ content line,
                scanned entries content ∧ line ∈ readlines content
                ∧ notice_line line ∧ s = Str.strip line)
    ∧ NoDup notices
    ∧ StronglySorted String.le notices.
Proof.
  intros entries.
  apply (proj1 read_notices_collects_stripped_lines (Notices.crate entries)
           Notices.dependency (VStr "B") "/src/B/Cargo.toml" entries).
  - reflexivity.
  - apply (bool_decide_eq_true_1 _). vm_compute. reflexivity.
  - reflexivity.
  - reflexivity.
Defined.


(** * Further properties of the script *)

(** ** parse_licenses: what it returns *)

Lemma identifiers_nonempty branch : identifiers branch ≠ [].
Proof. apply split_strip_nonempty. Qed.

(** X1: the list [parse_licenses] returns is never empty: a licence string,
    also the empty one, gives at least one identifier. *)
Theorem parse_licenses_nonempty (dependency : dict) (licenses : list string) :
  outcome (parse_licenses dependency) = Ret licenses → licenses ≠ [].
Proof.
  intros H. apply parse_licenses_outcome_Ret in H as [H [license Hl]].
  destruct license as [|raw].
  - unfold parse_licenses in H. rewrite Hl in H. discriminate H.
  - rewrite (parse_licenses_str _ _ Hl) in H.
    destruct (pick_skippable (branches raw)) as [licenses_all|] eqn:Hpick.
    + injection H as <-.
      apply pick_skippable_Some in Hpick as (_ & branch & _ & _ & _ & _ & ->).
      apply identifiers_nonempty.
    + destruct (bool_decide ("MIT" ∈ branches raw)); injection H as <-.
      * discriminate.
      * apply identifiers_nonempty.
Qed.

(** The empty licence string gives the one identifier that is empty. *)
Lemma parse_licenses_nonempty_witness :
  let dependency : dict := {[ "license" := VStr "" ]} in
  outcome (parse_licenses dependency) = Ret [""] ∧ [""] ≠ ([] : list string).
Proof.
  intros dependency.
  assert (H : outcome (parse_licenses dependency) = Ret [""])
    by (vm_compute; reflexivity).
  split; [exact H|]. exact (parse_licenses_nonempty dependency [""] H).
Defined.

(** ** A resolved package without a licence *)

Lemma parse_licenses_null (dependency : dict) :
  dependency !! "license" = Some VNone →
  parse_licenses dependency = ([], Raise (AttributeError "split")).
Proof. intros H. unfold parse_licenses. rewrite H. reflexivity. Qed.

Lemma parse_licenses_string (dependency : dict) raw :
  dependency !! "license" = Some (VStr raw) →
  ∃ licenses, parse_licenses dependency = ([], Ret licenses).
Proof.
  intros H. rewrite (parse_licenses_str _ _ H).
  destruct (pick_skippable (branches raw)); [eauto|].
  destruct (bool_decide ("MIT" ∈ branches raw)); eauto.
Qed.

(** The first loop of [download_licenses] over records that all have the key
    [license], one of them with [None]. *)
Lemma collect_licenses_null dependencies (dependency : dict) unique_licenses :
  Forall (λ d : dict, is_Some (d !! "license")) dependencies →
  dependency ∈ dependencies →
  dependency !! "license" = Some VNone →
  collect_licenses dependencies unique_licenses
  = ([], Raise (AttributeError "split")).
Proof.
  intros Hall Hin Hnull. revert unique_licenses.
  induction Hall as [|d rest [license Hd] _ IH]; intros unique_licenses;
    [inversion Hin|].
  simpl. destruct license as [|raw].
  - rewrite (parse_licenses_null _ Hd). reflexivity.
  - destruct (parse_licenses_string _ _ Hd) as [licenses ->].
    rewrite ret_bind. apply IH.
    apply elem_of_cons in Hin as [->|Hin]; [congruence|exact Hin].
Qed.

(** C4: a resolved dependency that declares no licence is a package the
    resolver returns with [license] [null] in the metadata.  Its record has
    the key [license], so the test of [parse_licenses] for a missing key
    passes it on, and the run ends with the [AttributeError] of [None.split]
    before anything is printed, fetched or written: the message for a
    dependency without a licence is not printed and [exit(1)] is not
    called. *)
Theorem null_license_raises (w : world) (packages : list Package.t) (q : Package.t) :
  q ∈ packages →
  Package.name q ∈ dependency_names packages target_package_name →
  Package.license q = VNone →
  main w packages = ([], Raise (AttributeError "split")).
Proof.
  intros Hq Hn Hnull. unfold main, run, download_licenses.
  rewrite (collect_licenses_null _ (record q) ∅).
  - reflexivity.
  - apply Forall_forall. intros r Hr.
    apply elem_of_get_package_dependencies in Hr as (p & _ & -> & _).
    rewrite record_license. eauto.
  - apply elem_of_get_package_dependencies. exists q. auto.
  - rewrite record_license. f_equal. exact Hnull.
Qed.

Module Unlicensed.
(** [libloot-cpp] depends on a crate that declares no licence. *)
Definition crate : Package.t :=
  Package.mk "mystery" "0.1.0" VNone "/src/mystery/Cargo.toml" [].
Definition graph : list Package.t :=
  [Package.mk "libloot-cpp" "0.1.0" (VStr "GPL-3.0-or-later") "/cpp/Cargo.toml"
     [Example.normal "mystery"];
   crate].
End Unlicensed.

(** The run for [libloot-cpp] with a dependency that declares no licence. *)
Lemma null_license_raises_witness :
  main (Notices.crate []) Unlicensed.graph = ([], Raise (AttributeError "split")).
Proof.
  apply (null_license_raises _ Unlicensed.graph Unlicensed.crate).
  - apply list_elem_of_further, list_elem_of_here.
  - apply (bool_decide_eq_true_1 _). vm_compute. reflexivity.
  - reflexivity.
Defined.

(** ** The exit status and the notices file *)

Lemma run_exits_with_1 w dependencies : exits_with_1 (run w dependencies).
Proof.
  unfold run.
  apply exits_with_1_bind; [apply download_licenses_exits_with_1|]. intros _.
  apply exits_with_1_bind; [apply add_dependencies_exits_with_1|]. intros notices_rst.
  apply exits_with_1_emit.
Qed.

(** A run that returns went through both phases and ended with the write. *)
Lemma run_Ret w dependencies :
  outcome (run w dependencies) = Ret tt →
  ∃ t1 t2 notices_rst,
    download_licenses w dependencies (Path.join output_dir "licenses") = (t1, Ret tt)
    ∧ add_dependencies w dependencies (header w) = (t2, Ret notices_rst)
    ∧ run w dependencies
      = (t1 ++ t2 ++ [WriteFile notices_rst_path notices_rst], Ret tt).
Proof.
  unfold run.
  destruct (download_licenses w dependencies (Path.join output_dir "licenses"))
    as [t1 [[]|s1|e1]]; [|discriminate|discriminate].
  rewrite bind_Ret.
  destruct (add_dependencies w dependencies (header w)) as [t2 [notices_rst|s2|e2]];
    [|discriminate|discriminate].
  intros _. exists t1, t2, notices_rst. split; [reflexivity|]. split; [reflexivity|].
  rewrite bind_Ret. reflexivity.
Qed.

(** X4: the exit status of a run is 0 or 1, and it is 0 exactly when the
    notices file was written. *)
Theorem exit_status_of_run (w : world) (dependencies : list dict) :
  (exit_status (outcome (run w dependencies)) = 0%Z
   ∨ exit_status (outcome (run w dependencies)) = 1%Z)
  ∧ (exit_status (outcome (run w dependencies)) = 0%Z
     ↔ ∃ content, WriteFile notices_rst_path content ∈ trace (run w dependencies)).
Proof.
  pose proof (run_exits_with_1 w dependencies) as Hexit.
  assert (Hzero : exit_status (outcome (run w dependencies)) = 0%Z
                  → outcome (run w dependencies) = Ret tt).
  { unfold exits_with_1 in Hexit.
    destruct (outcome (run w dependencies)) as [[]|s|e]; simpl.
    - reflexivity.
    - intros ->. specialize (Hexit 0%Z eq_refl). discriminate Hexit.
    - discriminate. }
  split.
  - unfold exits_with_1 in Hexit.
    destruct (outcome (run w dependencies)) as [[]|s|e]; simpl; auto.
  - split.
    + intros H. apply Hzero, run_Ret in H as (t1 & t2 & notices_rst & _ & _ & ->).
      exists notices_rst. simpl. rewrite !elem_of_app. right. right.
      apply list_elem_of_here.
    + intros [content H]. apply notices_written_only_on_success in H.
      rewrite H. reflexivity.
Qed.

(** ** The text of the notices *)

Lemma append_nil_r s : s +:+ "" = s.
Proof. induction s as [|c s IH]; [reflexivity|]. rewrite append_cons, IH. reflexivity. Qed.

Lemma append_assoc s t u : (s +:+ t) +:+ u = s +:+ t +:+ u.
Proof.
  induction s as [|c s IH]; [reflexivity|]. rewrite !append_cons, IH. reflexivity.
Qed.

(** The section the loop adds for a dependency: one for a dependency that is
    not a crate of libloot's own, whose licences do not all waive the notice
    and for which [read_notices] finds some; none for any other dependency
    the loop gets past. *)
Definition section_of (w : world) (dependency : dict) : string :=
  match dependency !! "name", dependency !! "version" with
  | Some name, Some version =>
      if bool_decide (name ∈ VStr <$> SKIPPABLE_CRATES) then ""
      else
        match outcome (parse_licenses dependency) with
        | Ret licenses =>
            if all_skippable licenses then ""
            else
              match outcome (read_notices w dependency) with
              | Ret (notice :: notices) => section_rst name version (notice :: notices)
              | _ => ""
              end
        | _ => ""
        end
  | _, _ => ""
  end.

Fixpoint sections_of (w : world) (dependencies : list dict) : string :=
  match dependencies with
  | [] => ""
  | dependency :: rest => section_of w dependency +:+ sections_of w rest
  end.

(** The values a computation can return satisfy [P]. *)
Definition returns {A} (P : A → Prop) (m : M A) : Prop :=
  ∀ a, outcome m = Ret a → P a.

Lemma returns_bind {A B} (P : B → Prop) (m : M A) (f : A → M B) :
  (∀ a, outcome m = Ret a → returns P (f a)) → returns P (m ≫= f).
Proof.
  intros H. destruct m as [t [a|s|e]].
  - rewrite bind_Ret. intros b Hb. exact (H a eq_refl b Hb).
  - intros b Hb. discriminate Hb.
  - intros b Hb. discriminate Hb.
Qed.

Lemma returns_mret {A} (P : A → Prop) (a : A) : P a → returns P (mret a).
Proof. intros H b [= <-]. exact H. Qed.

Lemma returns_exit {A} (P : A → Prop) status : returns P (@exit A status).
Proof. intros b Hb. discriminate Hb. Qed.

Lemma getitem_Ret (d : dict) key v : outcome (getitem d key) = Ret v → d !! key = Some v.
Proof. unfold getitem. destruct (d !! key); [intros [= <-]; reflexivity|discriminate]. Qed.

Lemma add_dependency_section w (dependency : dict) notices_rst :
  returns (λ notices_rst', notices_rst' = notices_rst +:+ section_of w dependency)
    (add_dependency w dependency notices_rst).
Proof.
  unfold add_dependency, section_of.
  apply returns_bind. intros name Hname. apply getitem_Ret in Hname. rewrite Hname.
  destruct (bool_decide (name ∈ VStr <$> SKIPPABLE_CRATES)).
  { destruct (dependency !! "version"); apply returns_mret;
      rewrite append_nil_r; reflexivity. }
  apply returns_bind. intros licenses Hp. rewrite Hp.
  destruct (all_skippable licenses).
  { apply returns_bind. intros license _. apply returns_bind. intros _ _.
    destruct (dependency !! "version"); apply returns_mret;
      rewrite append_nil_r; reflexivity. }
  apply returns_bind. intros notices Hr. rewrite Hr.
  destruct notices as [|notice notices].
  - apply returns_bind. intros version Hv. apply getitem_Ret in Hv. rewrite Hv.
    destruct (bool_decide _).
    + apply returns_bind. intros _ _. apply returns_exit.
    + apply returns_bind. intros _ _. apply returns_mret.
      rewrite append_nil_r. reflexivity.
  - apply returns_bind. intros version Hv. apply getitem_Ret in Hv. rewrite Hv.
    apply returns_mret. reflexivity.
Qed.

Lemma add_dependencies_sections w dependencies notices_rst :
  returns (λ notices_rst', notices_rst' = notices_rst +:+ sections_of w dependencies)
    (add_dependencies w dependencies notices_rst).
Proof.
  revert notices_rst. induction dependencies as [|d rest IH]; intros notices_rst.
  - apply returns_mret. simpl. rewrite append_nil_r. reflexivity.
  - rewrite add_dependencies_cons. apply returns_bind. intros notices_rst' Hd.
    apply add_dependency_section in Hd. subst notices_rst'.
    intros notices_rst'' H. apply IH in H. rewrite H. simpl.
    apply append_assoc.
Qed.

(** X5: the notices file a run writes holds the header followed by the
    sections of the dependencies, in their order: one section for each
    dependency that is not a crate of libloot's own, has a licence that asks
    for a notice and has notices, and nothing for the others. *)
Theorem notices_text (w : world) (dependencies : list dict) (content : string) :
  WriteFile notices_rst_path content ∈ trace (run w dependencies) →
  content = header w +:+ sections_of w dependencies.
Proof.
  intros Hin. pose proof (notices_written_only_on_success _ _ _ Hin) as Hret.
  apply run_Ret in Hret as (t1 & t2 & notices_rst & Hdl & Hloop & Hrun).
  rewrite Hrun in Hin. simpl in Hin.
  assert (Hfinal : content = notices_rst).
  { apply elem_of_app in Hin as [Hin|Hin]; [|apply elem_of_app in Hin as [Hin|Hin]].
    - exfalso. pose proof (download_licenses_events w dependencies
                             (Path.join output_dir "licenses")) as Hev.
      unfold events in Hev. rewrite Hdl, Forall_forall in Hev.
      eapply (run_event_not_notices dependencies); [|reflexivity].
      left. apply Hev. exact Hin.
    - exfalso. pose proof (add_dependencies_events w dependencies (header w)) as Hev.
      unfold events in Hev. rewrite Hloop, Forall_forall in Hev.
      eapply (run_event_not_notices dependencies); [|reflexivity].
      right. apply Hev. exact Hin.
    - apply list_elem_of_singleton in Hin. congruence. }
  subst content.
  apply (add_dependencies_sections w dependencies (header w) notices_rst).
  rewrite Hloop. reflexivity.
Qed.

Global Instance event_eq_dec : EqDecision event.
Proof. solve_decision. Defined.

Module Report.
(** Two crates under [MIT]: one with a notice in its licence file, one on the
    whitelist with none; and one under [Zlib]. *)
Definition w : world :=
  {| scandir := λ path,
       if decide (path = "/src/B")
       then Some [("LICENSE", File ("Copyright (c) 2020 Jane Doe" +:+ NL))]
       else Some [];
     urlopen := λ _, inr {| status := 200; reason := "OK"; read := "text" |};
     now := "2025-01-01T00:00:00";
     set_order := elements |}.
Definition pest : dict :=
  record (Package.mk "pest" "2.8.0" (VStr "MIT OR Apache-2.0") "/src/pest/Cargo.toml" []).
Definition zlib : dict :=
  record (Package.mk "Z" "0.1.0" (VStr "Zlib") "/src/Z/Cargo.toml" []).
Definition dependencies : list dict := [record Example.B; pest; zlib].
End Report.

Lemma notices_text_witness :
  let content := header Report.w +:+ section_rst (VStr "B") (VStr "1.0.0")
                   ["Copyright (c) 2020 Jane Doe"] in
  WriteFile notices_rst_path content ∈ trace (run Report.w Report.dependencies)
  ∧ content = header Report.w +:+ sections_of Report.w Report.dependencies.
Proof.
  intros content.
  assert (Hin : WriteFile notices_rst_path content
                ∈ trace (run Report.w Report.dependencies)).
  { apply (bool_decide_eq_true_1 _). vm_compute. reflexivity. }
  split; [exact Hin|]. exact (notices_text _ _ _ Hin).
Defined.

(** ** download_licenses: what a run that returns has fetched *)

Lemma download_license_Ret w output_directory license :
  outcome (download_license w output_directory license) = Ret tt →
  license ∉ SKIPPABLE_LICENSE_FILES →
  ∃ r, urlopen w (license_url license) = inr r
       ∧ status r = 200%Z
       ∧ trace (download_license w output_directory license)
         = [Stdout ("Downloading " +:+ license +:+ " from "
                    +:+ license_url license +:+ "...");
            UrlOpen (license_url license);
            WriteFile (Path.join output_directory license) (read r)].
Proof.
  intros H Hskip. unfold download_license in *.
  rewrite bool_decide_eq_false_2 in * by exact Hskip.
  destruct (urlopen w (license_url license)) as [e|r]; [discriminate H|].
  destruct (decide (status r ≠ 200%Z)) as [Hne|Heq]; [discriminate H|].
  exists r. split; [reflexivity|]. split; [|reflexivity].
  destruct (decide (status r = 200%Z)); [assumption|contradiction].
Qed.

Lemma for_each_Ret {A} (body : A → M unit) l x :
  outcome (for_each body l) = Ret tt → x ∈ l →
  outcome (body x) = Ret tt
  ∧ ∀ e, e ∈ trace (body x) → e ∈ trace (for_each body l).
Proof.
  induction l as [|y rest IH]; intros H Hin; [inversion Hin|].
  rewrite for_each_cons in *.
  destruct (body y) as [t [[]|s|e]] eqn:Hy; [|discriminate H|discriminate H].
  rewrite bind_Ret in *. simpl in H.
  apply elem_of_cons in Hin as [->|Hin].
  - rewrite Hy. split; [reflexivity|]. intros e He. simpl in *.
    apply elem_of_app. left. exact He.
  - destruct (IH H Hin) as [Hx Ht]. split; [exact Hx|].
    intros e He. simpl. apply elem_of_app. right. apply Ht. exact He.
Qed.

(** What [download_licenses] has done when it returns. *)
Lemma download_licenses_Ret w dependencies output_directory
    (d : dict) licenses license :
  (∀ X : gset string, set_order w X ≡ₚ elements X) →
  outcome (download_licenses w dependencies output_directory) = Ret tt →
  d ∈ dependencies → outcome (parse_licenses d) = Ret licenses →
  license ∈ licenses → license ∉ SKIPPABLE_LICENSE_FILES →
  ∃ r, urlopen w (license_url license) = inr r
       ∧ status r = 200%Z
       ∧ UrlOpen (license_url license)
         ∈ trace (download_licenses w dependencies output_directory)
       ∧ WriteFile (Path.join output_directory license) (read r)
         ∈ trace (download_licenses w dependencies output_directory).
Proof.
  intros Horder H Hd Hp Hl Hskip. unfold download_licenses in *.
  destruct (collect_licenses dependencies ∅) as [t [unique_licenses|s|e]] eqn:Hc;
    [|discriminate H|discriminate H].
  rewrite bind_Ret in *. simpl in H.
  assert (Hin : license ∈ set_order w (consolidate unique_licenses)).
  { rewrite (Horder _). apply elem_of_elements, consolidate_spec. split.
    - apply (collect_licenses_Ret dependencies ∅ unique_licenses);
        [rewrite Hc; reflexivity|].
      right. eauto.
    - intros _. split; intros ->; apply Hskip;
        apply (bool_decide_eq_true_1 _); vm_compute; reflexivity. }
  destruct (for_each_Ret _ _ _ H Hin) as [Hret Htrace].
  destruct (download_license_Ret _ _ _ Hret Hskip) as (r & Hr & Hs & Ht).
  exists r. split; [exact Hr|]. split; [exact Hs|]. simpl.
  split; apply elem_of_app; right; apply Htrace; rewrite Ht.
  - apply list_elem_of_further, list_elem_of_here.
  - apply list_elem_of_further, list_elem_of_further, list_elem_of_here.
Qed.

(** X6: when [download_licenses] returns, every identifier that
    [parse_licenses] chose for one of the dependencies and that is not in the
    skip list was fetched with a response of status 200, and the body of the
    response was written to the file of that name in the output directory. *)
Theorem download_licenses_complete (w : world) (dependencies : list dict)
    (output_directory : string) (d : dict) (licenses : list string) (license : string) :
  (∀ X : gset string, set_order w X ≡ₚ elements X) →
  outcome (download_licenses w dependencies output_directory) = Ret tt →
  d ∈ dependencies → outcome (parse_licenses d) = Ret licenses →
  license ∈ licenses → license ∉ SKIPPABLE_LICENSE_FILES →
  ∃ r, urlopen w (license_url license) = inr r
       ∧ status r = 200%Z
       ∧ UrlOpen (license_url license)
         ∈ trace (download_licenses w dependencies output_directory)
       ∧ WriteFile (Path.join output_directory license) (read r)
         ∈ trace (download_licenses w dependencies output_directory).
Proof. apply download_licenses_Ret. Qed.

Lemma download_licenses_complete_witness :
  let d : dict := {[ "license" := VStr "MIT OR Apache-2.0" ]} in
  ∃ r, urlopen Report.w (license_url "MIT") = inr r
       ∧ status r = 200%Z
       ∧ UrlOpen (license_url "MIT") ∈ trace (download_licenses Report.w [d] "licenses")
       ∧ WriteFile (Path.join "licenses" "MIT") (read r)
         ∈ trace (download_licenses Report.w [d] "licenses").
Proof.
  intros d.
  apply (download_licenses_complete Report.w [d] "licenses" d ["MIT"] "MIT").
  - intros X. reflexivity.
  - vm_compute. reflexivity.
  - apply list_elem_of_here.
  - vm_compute. reflexivity.
  - apply list_elem_of_here.
  - apply (bool_decide_eq_true_1 _). vm_compute. reflexivity.
Defined.

(** X7: a licence to fetch for which [urlopen] raises, or answers with a
    status other than 200, ends the run: [download_licenses] does not return,
    and the exit status is 1. *)
Theorem download_failure_is_fatal (w : world) (dependencies : list dict)
    (output_directory : string) (d : dict) (licenses : list string) (license : string) :
  (∀ X : gset string, set_order w X ≡ₚ elements X) →
  d ∈ dependencies → outcome (parse_licenses d) = Ret licenses →
  license ∈ licenses → license ∉ SKIPPABLE_LICENSE_FILES →
  (∀ r, urlopen w (license_url license) = inr r → status r ≠ 200%Z) →
  fatal (download_licenses w dependencies output_directory)
  ∧ exit_status (outcome (download_licenses w dependencies output_directory)) = 1%Z.
Proof.
  intros Horder Hd Hp Hl Hskip Hbad.
  assert (Hf : fatal (download_licenses w dependencies output_directory)).
  { apply not_Ret_fatal; [apply download_licenses_exits_with_1|].
    intros [] Hret.
    destruct (download_licenses_Ret _ _ _ _ _ _ Horder Hret Hd Hp Hl Hskip)
      as (r & Hr & Hs & _).
    exact (Hbad r Hr Hs). }
  split; [exact Hf|apply fatal_exit_status; exact Hf].
Qed.

Lemma download_failure_is_fatal_witness :
  let w := {| scandir := λ _, None;
              urlopen := λ _, inr {| status := 204; reason := "No Content"; read := "" |};
              now := ""; set_order := elements |} in
  let d : dict := {[ "license" := VStr "MIT" ]} in
  download_licenses w [d] "licenses"
  = ([Stdout ("Downloading MIT from " +:+ license_url "MIT" +:+ "...");
      UrlOpen (license_url "MIT");
      Stderr "Error fetching license: 204 No Content, b''"], Exit 1)
  ∧ fatal (download_licenses w [d] "licenses")
  ∧ exit_status (outcome (download_licenses w [d] "licenses")) = 1%Z.
Proof.
  intros w d. split; [vm_compute; reflexivity|].
  apply (download_failure_is_fatal w [d] "licenses" d ["MIT"] "MIT").
  - intros X. reflexivity.
  - apply list_elem_of_here.
  - vm_compute. reflexivity.
  - apply list_elem_of_here.
  - apply (bool_decide_eq_true_1 _). vm_compute. reflexivity.
  - intros r [= <-]. discriminate.
Defined.

(** ** The exceptions of a run *)

(** The exceptions a computation can end with satisfy [P]. *)
Definition raises {A} (P : exn → Prop) (m : M A) : Prop :=
  ∀ e, outcome m = Raise e → P e.





Lemma raises_impl {A} (P Q : exn → Prop) (m : M A) :
  (∀ e, P e → Q e) → raises P m → raises Q m.
Proof. intros HPQ H e He. apply HPQ, H, He. Qed.










Module Unlisted.
(** [libloot-cpp] depends on a crate whose directory cannot be listed. *)
Definition graph : list Package.t :=
  [Package.mk "libloot-cpp" "0.1.0" (VStr "GPL-3.0-or-later") "/cpp/Cargo.toml"
     [Example.normal "B"];
   Example.B].
Definition w : world :=
  {| scandir := λ _, None;
     urlopen := λ _, inr {| status := 200; reason := "OK"; read := "text" |};
     now := ""; set_order := elements |}.
End Unlisted.


(** ** read_notices: errors, overrides and the order of a listing *)





Module Listing.
End Listing.


(** ** The resolver and the order of the packages *)

Lemma depends_on_ext packages packages' p n :
  (∀ q, q ∈ packages → q ∈ packages') →
  depends_on packages p n → depends_on packages' p n.
Proof.
  intros Hsub Hd. induction Hd as [p e He Hr|p e q n He Hr Hq Hqn Hd IH].
  - apply depends_direct; assumption.
  - apply depends_step with e q; auto.
Qed.

Lemma dependency_names_ext packages packages' package_name :
  (∀ q, q ∈ packages ↔ q ∈ packages') →
  dependency_names packages' package_name = dependency_names packages package_name.
Proof.
  intros H. apply set_eq. intros n. rewrite !dependency_names_spec.
  split; intros (p & [Hp Hname] & Hd); exists p; split.
  - split; [apply H; exact Hp|exact Hname].
  - eapply depends_on_ext; [|exact Hd]. intros q Hq. apply H. exact Hq.
  - split; [apply H; exact Hp|exact Hname].
  - eapply depends_on_ext; [|exact Hd]. intros q Hq. apply H. exact Hq.
Qed.

(** X11: the order in which the metadata lists the packages does not matter
    to what the resolver collects: a permutation of the packages gives the
    same set of names, and the same records up to their order. *)
Theorem resolver_order_irrelevant (packages packages' : list Package.t)
    (package_name : string) :
  packages ≡ₚ packages' →
  dependency_names packages' package_name = dependency_names packages package_name
  ∧ get_package_dependencies packages' package_name
    ≡ₚ get_package_dependencies packages package_name.
Proof.
  intros Hperm.
  assert (Hnames : dependency_names packages' package_name
                   = dependency_names packages package_name).
  { apply dependency_names_ext. intros q. rewrite Hperm. reflexivity. }
  split; [exact Hnames|].
  unfold get_package_dependencies. rewrite Hnames, Hperm. reflexivity.
Qed.

Lemma resolver_order_irrelevant_witness :
  dependency_names (reverse Example.graph) "A" = dependency_names Example.graph "A"
  ∧ get_package_dependencies (reverse Example.graph) "A"
    ≡ₚ get_package_dependencies Example.graph "A".
Proof.
  apply resolver_order_irrelevant. symmetry. apply reverse_Permutation.
Defined.

(** ** Splitting and stripping *)

Lemma rev_app_spec s acc : String.rev_app s acc = String.rev s +:+ acc.
Proof.
  unfold String.rev. revert acc. induction s as [|a s IH]; intros acc; [reflexivity|].
  simpl. rewrite (IH (String a acc)), (IH (String a "")), append_assoc. reflexivity.
Qed.

Lemma rev_cons a s : String.rev (String a s) = String.rev s +:+ String a "".
Proof. unfold String.rev at 1. simpl. apply rev_app_spec. Qed.

Lemma rev_append s t : String.rev (s +:+ t) = String.rev t +:+ String.rev s.
Proof.
  induction s as [|a s IH].
  - rewrite append_nil, append_nil_r. reflexivity.
  - rewrite append_cons, !rev_cons, IH, append_assoc. reflexivity.
Qed.

Lemma rev_involutive s : String.rev (String.rev s) = s.
Proof.
  induction s as [|a s IH]; [reflexivity|].
  rewrite rev_cons, rev_append, IH. reflexivity.
Qed.

(** After the rest of a separator has been passed over, splitting goes on
    behind it. *)
Lemma split_go_skip sep p cur rest :
  Str.split_go sep (String.length p) cur (p +:+ rest) = Str.split_go sep 0 cur rest.
Proof.
  induction p as [|a p IH]; [reflexivity|].
  rewrite append_cons. simpl. exact IH.
Qed.

Lemma join_cons sep x l : l ≠ [] → Str.join sep (x :: l) = x +:+ sep +:+ Str.join sep l.
Proof. destruct l; [contradiction|reflexivity]. Qed.

Lemma split_go_join sep n :
  sep ≠ "" →
  ∀ s cur, String.length s ≤ n →
    Str.join sep (Str.split_go sep 0 cur s) = String.rev cur +:+ s.
Proof.
  intros Hsep. induction n as [|n IH]; intros s cur Hlen.
  - destruct s; [|simpl in Hlen; lia]. simpl. rewrite append_nil_r. reflexivity.
  - destruct s as [|c s]; [simpl; rewrite append_nil_r; reflexivity|].
    simpl in Hlen.
    change (Str.split_go sep 0 cur (String c s))
      with (if Str.startswith sep (String c s)
            then String.rev cur :: Str.split_go sep (String.length sep - 1) "" s
            else Str.split_go sep 0 (String c cur) s).
    destruct (Str.startswith sep (String c s)) eqn:Hstart.
    + apply startswith_spec in Hstart as [after Hafter].
      destruct sep as [|a sep']; [contradiction|].
      rewrite append_cons in Hafter. injection Hafter as <- ->.
      replace (String.length (String c sep') - 1) with (String.length sep')
        by (simpl; lia).
      rewrite split_go_skip, join_cons by apply split_go_nonempty.
      rewrite IH by (rewrite append_length in Hlen; lia).
      rewrite append_nil. reflexivity.
    + rewrite IH by lia. rewrite rev_cons, append_assoc. reflexivity.
Qed.

(** Splitting loses nothing: the pieces of [s.split(sep)], joined with
    the separator, are [s].  So the alternatives of a licence expression
    joined with [OR], and the identifiers of an alternative joined with
    [AND], give back the text that was split. *)
Theorem split_join (sep s : string) :
  sep ≠ "" → Str.join sep (Str.split sep s) = s.
Proof.
  intros Hsep. unfold Str.split.
  rewrite (split_go_join sep (String.length s) Hsep s "") by lia.
  reflexivity.
Qed.

Lemma split_join_witness :
  Str.split "OR" "MIT OR Apache-2.0 OR  TORQUE-1.1" = ["MIT "; " Apache-2.0 "; "  T"; "QUE-1.1"]
  ∧ Str.join "OR" (Str.split "OR" "MIT OR Apache-2.0 OR  TORQUE-1.1")
    = "MIT OR Apache-2.0 OR  TORQUE-1.1".
Proof.
  split; [vm_compute; reflexivity|]. apply split_join. discriminate.
Defined.

(** ** parse_licenses: where the expression is cut *)

(** The policy as the specification words it: the expression is split at
    the operators [OR] that stand at its top level, and a branch at its
    operators [AND]. *)
Module Policy.

(** The parts of [s] between the occurrences of the operator [op] that stand
    as a word of their own, a space on either side, outside all parentheses;
    each part stripped.  [skip] counts the characters of an operator still to
    pass over, [cur] holds the current part reversed. *)
Fixpoint top_level_go (op : string) (depth skip : nat) (cur s : string) : list string :=
  match s with
  | "" => [Str.strip (String.rev cur)]
  | String c s' =>
      match skip with
      | S k => top_level_go op depth k cur s'
      | 0 =>
          if decide (c = "("%char) then top_level_go op (S depth) 0 (String c cur) s'
          else if decide (c = ")"%char) then top_level_go op (pred depth) 0 (String c cur) s'
          else if bool_decide (depth = 0) && Str.startswith (" " +:+ op +:+ " ") s
          then Str.strip (String.rev cur)
               :: top_level_go op depth (String.length op + 1) "" s'
          else top_level_go op depth 0 (String c cur) s'
      end
  end.

Definition top_level (op s : string) : list string := top_level_go op 0 0 "" s.

(** The identifiers the policy selects. *)
Definition simplify (raw : string) : list string :=
  let branches := top_level "OR" (normalize raw) in
  match List.find (λ branch, all_skippable (top_level "AND" branch)) branches with
  | Some branch => top_level "AND" branch
  | None =>
      if bool_decide ("MIT" ∈ branches) then ["MIT"]
      else top_level "AND" (hd "" branches)
  end.

End Policy.

(** C1, as the specification states it: the identifier [TORQUE-1.1] has no
    operator and is its own single branch, but [parse_licenses] cuts it at
    the letters [OR] inside it and returns [T]; of an expression in
    parentheses it returns a piece with the parenthesis.  On the three
    examples of the specification the two agree. *)
Lemma parse_licenses_cuts_inside_identifiers :
  parse_licenses {[ "license" := VStr "TORQUE-1.1" ]} = ([], Ret ["T"])
  ∧ Policy.simplify "TORQUE-1.1" = ["TORQUE-1.1"]
  ∧ parse_licenses {[ "license" := VStr "(MIT OR Apache-2.0) AND Zlib" ]}
    = ([], Ret ["(MIT"])
  ∧ Policy.simplify "(MIT OR Apache-2.0) AND Zlib" = ["(MIT OR Apache-2.0)"; "Zlib"]
  ∧ Policy.simplify "MIT/Apache-2.0" = ["MIT"]
  ∧ Policy.simplify "(Apache-2.0 OR MIT) AND BSD-3-Clause" = ["MIT"; "BSD-3-Clause"]
  ∧ Policy.simplify "CC0-1.0 OR MIT" = ["CC0-1.0"]
  ∧ ¬ (∀ (dependency : dict) raw,
         dependency !! "license" = Some (VStr raw) →
         parse_licenses dependency = ([], Ret (Policy.simplify raw))).
Proof.
  repeat (split; [vm_compute; reflexivity|]).
  intros H.
  specialize (H {[ "license" := VStr "TORQUE-1.1" ]} "TORQUE-1.1" eq_refl).
  vm_compute in H. discriminate H.
Qed.

(** [pieces] are the pieces of [text] between the occurrences of [sep]: put
    together with [sep] between them they give [text] back, and [sep] occurs
    in none of them. *)
Definition cut (sep text : string) (pieces : list string) : Prop :=
  pieces ≠ []
  ∧ Str.join sep pieces = text
  ∧ Forall (λ piece, Str.contains sep piece = false) pieces.

(** [parts] are the pieces of [text] between the occurrences of [sep], each
    stripped of the white space around it. *)
Definition textual_split (sep text : string) (parts : list string) : Prop :=
  ∃ pieces, cut sep text pieces ∧ parts = Str.strip <$> pieces.

(** The alternative has an identifier that is not one that needs no
    notice. *)
Definition needs_notice (branch : string) : Prop :=
  ∃ licenses,
    textual_split "AND" branch licenses
    ∧ ¬ Forall (λ license, license ∈ SKIPPABLE_NOTICE_LICENSES) licenses.

(** [sep] starts at none of the positions of [v] in [v +:+ s]. *)
Fixpoint starts_nowhere (sep v s : string) : Prop :=
  match v with
  | "" => True
  | String c v' =>
      Str.startswith sep (String c v' +:+ s) = false ∧ starts_nowhere sep v' s
  end.

Lemma startswith_append sep x s :
  Str.startswith sep x = true → Str.startswith sep (x +:+ s) = true.
Proof.
  revert x. induction sep as [|a sep IH]; intros x H; [reflexivity|].
  destruct x as [|b x]; [discriminate H|].
  rewrite append_cons. simpl in *. destruct (decide (a = b)); [auto|discriminate H].
Qed.

Lemma starts_nowhere_snoc sep v c s :
  starts_nowhere sep v (String c s) →
  Str.startswith sep (String c s) = false →
  starts_nowhere sep (v +:+ String c "") s.
Proof.
  intros Hv Hc. induction v as [|a v IH].
  - split; [exact Hc|exact I].
  - destruct Hv as [Ha Hv]. split; [|auto].
    rewrite append_cons, append_assoc. exact Ha.
Qed.

Lemma starts_nowhere_contains sep v s :
  sep ≠ "" → starts_nowhere sep v s → Str.contains sep v = false.
Proof.
  intros Hsep. induction v as [|a v IH]; intros Hv.
  - destruct sep; [contradiction|reflexivity].
  - destruct Hv as [Ha Hv].
    change (Str.contains sep (String a v))
      with (Str.startswith sep (String a v) || Str.contains sep v).
    rewrite (IH Hv), orb_false_r.
    destruct (Str.startswith sep (String a v)) eqn:Hstart; [|reflexivity].
    rewrite (startswith_append _ _ s Hstart) in Ha. discriminate Ha.
Qed.

(** The separator occurs in no piece of a split. *)
Lemma split_go_free sep s :
  sep ≠ "" →
  ∀ skip cur,
    (skip ≠ 0 → cur = "") →
    starts_nowhere sep (String.rev cur) s →
    Forall (λ piece, Str.contains sep piece = false) (Str.split_go sep skip cur s).
Proof.
  intros Hsep. induction s as [|c s IH]; intros skip cur Hskip Hcur.
  - constructor; [|constructor]. eapply starts_nowhere_contains; eauto.
  - destruct skip as [|k].
    + change (Str.split_go sep 0 cur (String c s))
        with (if Str.startswith sep (String c s)
              then String.rev cur :: Str.split_go sep (String.length sep - 1) "" s
              else Str.split_go sep 0 (String c cur) s).
      destruct (Str.startswith sep (String c s)) eqn:Hstart.
      * constructor; [eapply starts_nowhere_contains; eauto|].
        apply IH; [reflexivity|exact I].
      * apply IH; [intros H; contradiction|].
        rewrite rev_cons. apply starts_nowhere_snoc; assumption.
    + rewrite Hskip by discriminate.
      change (Str.split_go sep (S k) "" (String c s)) with (Str.split_go sep k "" s).
      apply IH; [reflexivity|exact I].
Qed.

Lemma split_cut sep text : sep ≠ "" → cut sep text (Str.split sep text).
Proof.
  intros Hsep. unfold cut, Str.split. split; [apply split_go_nonempty|]. split.
  - rewrite (split_go_join sep (String.length text) Hsep text "") by lia.
    reflexivity.
  - apply split_go_free; [exact Hsep|reflexivity|exact I].
Qed.

Lemma split_strip_textual sep text :
  sep ≠ "" → textual_split sep text (split_strip sep text).
Proof.
  intros Hsep. exists (Str.split sep text). split; [apply split_cut; exact Hsep|].
  reflexivity.
Qed.

Lemma not_notice_free_needs_notice branch : ¬ notice_free branch → needs_notice branch.
Proof.
  intros H. exists (identifiers branch). split; [|exact H].
  apply split_strip_textual. discriminate.
Qed.

(** C1, amended: the identifiers [parse_licenses] returns for a licence
    string.  The rewritten expression is cut at every occurrence of the
    letters [OR], wherever they stand, and each piece stripped; an
    alternative is cut in the same way at the letters [AND] into its
    identifiers.  The result is the identifiers of the first alternative whose
    identifiers all need no notice; with no such alternative, [MIT] alone when
    one alternative is [MIT]; otherwise the identifiers of the first
    alternative. *)
Theorem parse_licenses_policy :
  (∀ (dependency : dict) raw,
     dependency !! "license" = Some (VStr raw) →
     ∃ alternatives licenses,
       textual_split "OR" (normalize raw) alternatives
       ∧ parse_licenses dependency = ([], Ret licenses)
       ∧ ((∃ before branch after,
             alternatives = before ++ branch :: after
             ∧ Forall needs_notice before
             ∧ textual_split "AND" branch licenses
             ∧ Forall (λ license, license ∈ SKIPPABLE_NOTICE_LICENSES) licenses)
          ∨ (Forall needs_notice alternatives
             ∧ "MIT" ∈ alternatives
             ∧ licenses = ["MIT"])
          ∨ (Forall needs_notice alternatives
             ∧ "MIT" ∉ alternatives
             ∧ ∃ first rest, alternatives = first :: rest
                             ∧ textual_split "AND" first licenses)))
  ∧ normalize "MIT/Apache-2.0" = "MIT OR Apache-2.0"
  ∧ normalize "(Apache-2.0 OR MIT) AND BSD-3-Clause" = "MIT AND BSD-3-Clause"
  ∧ normalize "(MIT OR Apache-2.0) AND Unicode-3.0" = "MIT AND Unicode-3.0"
  ∧ (∀ raw, raw ∉ ["MIT/Apache-2.0"; "(Apache-2.0 OR MIT) AND BSD-3-Clause";
                   "(MIT OR Apache-2.0) AND Unicode-3.0"] →
            normalize raw = raw)
  ∧ (∀ dependency : dict,
       dependency !! "license" = Some (VStr "MIT/Apache-2.0") →
       parse_licenses dependency = ([], Ret ["MIT"]))
  ∧ (∀ dependency : dict,
       dependency !! "license" = Some (VStr "(Apache-2.0 OR MIT) AND BSD-3-Clause") →
       parse_licenses dependency = ([], Ret ["MIT"; "BSD-3-Clause"]))
  ∧ (∀ dependency : dict,
       dependency !! "license" = Some (VStr "CC0-1.0 OR MIT") →
       parse_licenses dependency = ([], Ret ["CC0-1.0"])).
Proof.
  assert (Hneeds : ∀ l, Forall (λ b, ¬ notice_free b) l → Forall needs_notice l).
  { intros l H. eapply Forall_impl; [exact H|].
    intros b Hb. apply not_notice_free_needs_notice. exact Hb. }
  split; [|repeat split].
  - intros dependency raw H. rewrite (parse_licenses_str _ _ H).
    exists (branches raw).
    assert (Hcut : textual_split "OR" (normalize raw) (branches raw))
      by (apply split_strip_textual; discriminate).
    destruct (pick_skippable (branches raw)) as [licenses_all|] eqn:Hpick.
    + exists licenses_all. split; [exact Hcut|]. split; [reflexivity|]. left.
      apply pick_skippable_Some in Hpick
        as (before & branch & after & Heq & Hbefore & Hfree & ->).
      exists before, branch, after. split; [exact Heq|].
      split; [apply Hneeds; exact Hbefore|].
      split; [apply split_strip_textual; discriminate|exact Hfree].
    + apply pick_skippable_None in Hpick.
      destruct (bool_decide ("MIT" ∈ branches raw)) eqn:Hmit.
      * exists ["MIT"]. split; [exact Hcut|]. split; [reflexivity|]. right. left.
        apply bool_decide_eq_true in Hmit. auto.
      * apply bool_decide_eq_false in Hmit.
        exists (identifiers (hd "" (branches raw))).
        split; [exact Hcut|]. split; [reflexivity|].
        right. right. split; [apply Hneeds; exact Hpick|]. split; [exact Hmit|].
        pose proof (split_strip_nonempty "OR" (normalize raw)) as Hne.
        fold (branches raw) in Hne.
        destruct (branches raw) as [|first rest]; [contradiction|].
        exists first, rest. split; [reflexivity|].
        apply split_strip_textual. discriminate.
  - intros raw Hraw. unfold normalize.
    repeat case_decide; try reflexivity; subst; exfalso; apply Hraw; set_solver.
  - intros dependency H. rewrite (parse_licenses_str _ _ H). vm_compute. reflexivity.
  - intros dependency H. rewrite (parse_licenses_str _ _ H). vm_compute. reflexivity.
  - intros dependency H. rewrite (parse_licenses_str _ _ H). vm_compute. reflexivity.
Qed.

(** The policy at the licence [Zlib OR MIT] of a record that has nothing
    else. *)
Lemma parse_licenses_policy_witness :
  let dependency : dict := {[ "license" := VStr "Zlib OR MIT" ]} in
  dependency !! "license" = Some (VStr "Zlib OR MIT")
  ∧ ∃ alternatives licenses,
      textual_split "OR" (normalize "Zlib OR MIT") alternatives
      ∧ parse_licenses dependency = ([], Ret licenses)
      ∧ ((∃ before branch after,
            alternatives = before ++ branch :: after
            ∧ Forall needs_notice before
            ∧ textual_split "AND" branch licenses
            ∧ Forall (λ license, license ∈ SKIPPABLE_NOTICE_LICENSES) licenses)
         ∨ (Forall needs_notice alternatives
            ∧ "MIT" ∈ alternatives
            ∧ licenses = ["MIT"])
         ∨ (Forall needs_notice alternatives
            ∧ "MIT" ∉ alternatives
            ∧ ∃ first rest, alternatives = first :: rest
                            ∧ textual_split "AND" first licenses)).
Proof.
  split; [reflexivity|].
  apply (proj1 parse_licenses_policy). reflexivity.
Defined.

(** A string that does not start with white space. *)
Definition no_lead (s : string) : Prop :=
  match s with
  | "" => True
  | String c _ => Str.isspace c = false
  end.

Fixpoint all_space (s : string) : bool :=
  match s with
  | "" => true
  | String c s' => Str.isspace c && all_space s'
  end.

Lemma lstrip_no_lead s : no_lead (Str.lstrip s).
Proof.
  induction s as [|c s IH]; [exact I|]. simpl.
  destruct (Str.isspace c) eqn:Hc; [exact IH|exact Hc].
Qed.

Lemma lstrip_id s : no_lead s → Str.lstrip s = s.
Proof. destruct s as [|c s]; [reflexivity|]. simpl. intros ->. reflexivity. Qed.

Lemma lstrip_snoc u c :
  Str.isspace c = false →
  Str.lstrip (u +:+ String c "") = Str.lstrip u +:+ String c "".
Proof.
  intros Hc. induction u as [|a u IH].
  - rewrite append_nil. simpl. rewrite Hc. reflexivity.
  - rewrite append_cons. simpl. destruct (Str.isspace a); [exact IH|].
    rewrite append_cons. reflexivity.
Qed.

Lemma rstrip_no_lead t : no_lead t → no_lead (Str.rstrip t).
Proof.
  destruct t as [|c t]; [intros _; exact I|]. simpl. intros Hc.
  unfold Str.rstrip. rewrite rev_cons, (lstrip_snoc _ _ Hc), rev_append.
  simpl. exact Hc.
Qed.

Lemma strip_no_lead s : no_lead (Str.strip s).
Proof. apply rstrip_no_lead, lstrip_no_lead. Qed.

Lemma strip_strip s : Str.strip (Str.strip s) = Str.strip s.
Proof.
  unfold Str.strip at 1. rewrite (lstrip_id _ (strip_no_lead s)).
  unfold Str.strip, Str.rstrip. rewrite rev_involutive.
  rewrite (lstrip_id _ (lstrip_no_lead _)). reflexivity.
Qed.

Lemma split_strip_stripped sep s x : x ∈ split_strip sep s → Str.strip x = x.
Proof.
  unfold split_strip. intros H. apply list_elem_of_fmap in H as (y & -> & _).
  apply strip_strip.
Qed.

Lemma all_space_append s t : all_space (s +:+ t) = all_space s && all_space t.
Proof.
  induction s as [|c s IH]; [reflexivity|].
  rewrite append_cons. simpl. rewrite IH, andb_assoc. reflexivity.
Qed.

Lemma lstrip_empty s : Str.lstrip s = "" → all_space s = true.
Proof.
  induction s as [|c s IH]; [reflexivity|]. simpl.
  destruct (Str.isspace c); [exact IH|discriminate].
Qed.

Lemma rev_empty s : String.rev s = "" → s = "".
Proof. intros H. rewrite <- (rev_involutive s), H. reflexivity. Qed.

Lemma strip_empty s : Str.strip s = "" → all_space s = true.
Proof.
  unfold Str.strip, Str.rstrip. intros H. apply rev_empty, lstrip_empty in H.
  pose proof (lstrip_no_lead s) as Hlead.
  destruct (Str.lstrip s) as [|c t] eqn:Hl; [apply lstrip_empty; exact Hl|].
  simpl in Hlead. rewrite rev_cons, all_space_append in H.
  apply andb_true_iff in H as [_ H]. simpl in H. rewrite Hlead in H. discriminate H.
Qed.

Lemma isspace_lower c : Str.isspace c = true → Str.lower_char c = c.
Proof.
  destruct c as [[] [] [] [] [] [] [] []]; vm_compute; intros H;
    first [reflexivity|discriminate H].
Qed.

Lemma all_space_lower s : all_space s = true → all_space (Str.lower s) = true.
Proof.
  induction s as [|c s IH]; [reflexivity|]. simpl.
  rewrite !andb_true_iff. intros [Hc Hs].
  rewrite (isspace_lower _ Hc). auto.
Qed.

Lemma notice_line_not_blank line : notice_line line → all_space line = false.
Proof.
  intros [(before & after & Hc) _].
  destruct (all_space line) eqn:Hall; [|reflexivity].
  apply all_space_lower in Hall. rewrite Hc, !all_space_append in Hall.
  apply andb_true_iff in Hall as [_ Hall].
  apply andb_true_iff in Hall as [Hall _]. vm_compute in Hall. discriminate Hall.
Qed.

(** X2: what the script keeps of a text has no white space around it.  Every
    identifier [parse_licenses] returns is its own [strip()]; every notice
    [read_notices] takes from the files is its own [strip()] and is not
    empty. *)
Theorem results_are_stripped :
  (∀ (dependency : dict) licenses license,
     outcome (parse_licenses dependency) = Ret licenses →
     license ∈ licenses → Str.strip license = license)
  ∧ (∀ entries notice,
       notice ∈ sorted_set (scan_crate entries) →
       Str.strip notice = notice ∧ notice ≠ "").
Proof.
  split.
  - intros dependency licenses license H Hin.
    apply parse_licenses_outcome_Ret in H as [H [value Hl]].
    destruct value as [|raw].
    { unfold parse_licenses in H. rewrite Hl in H. discriminate H. }
    rewrite (parse_licenses_str _ _ Hl) in H.
    destruct (pick_skippable (branches raw)) as [licenses_all|] eqn:Hpick.
    + injection H as <-.
      apply pick_skippable_Some in Hpick as (_ & branch & _ & _ & _ & _ & ->).
      eapply split_strip_stripped. exact Hin.
    + destruct (bool_decide ("MIT" ∈ branches raw)); injection H as <-.
      * apply list_elem_of_singleton in Hin as ->. vm_compute. reflexivity.
      * eapply split_strip_stripped. exact Hin.
  - intros entries notice Hin.
    apply sorted_set_spec, elem_of_scan_crate in Hin as (content & _ & Hin).
    apply elem_of_scan_lines in Hin as (line & _ & Hline & ->).
    split; [apply strip_strip|].
    intros Hempty. apply strip_empty in Hempty.
    rewrite (notice_line_not_blank _ Hline) in Hempty. discriminate Hempty.
Qed.

Lemma results_are_stripped_witness :
  let dependency : dict := {[ "license" := VStr "  MIT   AND  Unicode-3.0 " ]} in
  outcome (parse_licenses dependency) = Ret ["MIT"; "Unicode-3.0"]
  ∧ Str.strip "Unicode-3.0" = "Unicode-3.0".
Proof.
  intros dependency.
  assert (H : outcome (parse_licenses dependency) = Ret ["MIT"; "Unicode-3.0"])
    by (vm_compute; reflexivity).
  split; [exact H|].
  apply (proj1 results_are_stripped dependency _ _ H).
  apply list_elem_of_further, list_elem_of_here.
Defined.


(** * The version script, [scripts/set_version_number.py]

    The script rewrites the version number in a fixed list of files.  Each
    rewrite is a call of [replace_in_file] with a path, a regular expression
    and a replacement; the model records these calls and leaves the matching
    of the expressions to [re.sub]. *)

Module SetVersion.

Inductive error :=
| Usage
| RuntimeError (message : string)
| IndexError.

(** One call [replace_in_file(path, regex, replacement)]. *)
Record call := Call {
  path : string;
  regex : string;
  replacement : string
}.

(** A computation: the calls made, and how it ended. *)
Definition run (A : Type) : Type := list call * (error + A).

Definition bind {A B} (m : run A) (f : A → run B) : run B :=
  match m with
  | (calls, inr a) => let '(calls', r) := f a in (calls ++ calls', r)
  | (calls, inl e) => (calls, inl e)
  end.

Global Instance run_ret : MRet run := λ A a, ([], inr a).
Global Instance run_bind : MBind run := λ A B f m, bind m f.

Definition replace_in_file (path regex replacement : string) : run unit :=
  ([Call path regex replacement], inr tt).

(** [l[i]]. *)
Definition index (l : list string) (i : nat) : run string :=
  match l !! i with
  | Some x => mret x
  | None => ([], inl IndexError)
  end.

(** The quotation mark as a one-character string. *)
Definition Q : string := String "034"%char "".

(** [s.replace(old, new)] for an [old] that is not empty.  [skip] counts the
    characters of an occurrence still to pass over. *)
Fixpoint replace_go (old new : string) (skip : nat) (s : string) : string :=
  match s with
  | "" => ""
  | String c s' =>
      match skip with
      | S k => replace_go old new k s'
      | 0 =>
          if Str.startswith old s
          then new +:+ replace_go old new (String.length old - 1) s'
          else String c (replace_go old new 0 s')
      end
  end.

Definition replace (old new s : string) : string := replace_go old new 0 s.

Definition update_cpp_file (path version : string) : run unit :=
  let version_parts := Str.split "." version in
  major ← index version_parts 0;
  replace_in_file path "LIBLOOT_VERSION_MAJOR = \d+;"
    ("LIBLOOT_VERSION_MAJOR = " +:+ major +:+ ";");;
  minor ← index version_parts 1;
  replace_in_file path "LIBLOOT_VERSION_MINOR = \d+;"
    ("LIBLOOT_VERSION_MINOR = " +:+ minor +:+ ";");;
  patch ← index version_parts 2;
  replace_in_file path "LIBLOOT_VERSION_PATCH = \d+;"
    ("LIBLOOT_VERSION_PATCH = " +:+ patch +:+ ";").

Definition update_resource_file (path version : string) : run unit :=
  let comma_separated_version := replace "." ", " version in
  replace_in_file path "VERSION \d+, \d+, \d+" ("VERSION " +:+ comma_separated_version);;
  replace_in_file path ("Version" +:+ Q +:+ ", " +:+ Q +:+ "\d+\.\d+\.\d+" +:+ Q)
    ("Version" +:+ Q +:+ ", " +:+ Q +:+ version +:+ Q).

Definition update_cmakelists (path version : string) : run unit :=
  let version_parts := Str.split "." version in
  replace_in_file path ("set\(LIBLOOT_VERSION " +:+ Q +:+ "\d+\.\d+\.\d+" +:+ Q +:+ "\)")
    ("set(LIBLOOT_VERSION " +:+ Q +:+ version +:+ Q +:+ ")");;
  major ← index version_parts 0;
  replace_in_file path "TARGET loot PROPERTY SOVERSION \d+"
    ("TARGET loot PROPERTY SOVERSION " +:+ major);;
  major ← index version_parts 0;
  replace_in_file path "INTERFACE_libloot_MAJOR_VERSION \d+"
    ("INTERFACE_libloot_MAJOR_VERSION " +:+ major).

Definition update_cargo_toml (path version : string) : run unit :=
  replace_in_file path ("^version = " +:+ Q +:+ "\d+\.\d+\.\d+" +:+ Q +:+ "$")
    ("version = " +:+ Q +:+ version +:+ Q).

Definition update_package_json (path version : string) : run unit :=
  replace_in_file path (Q +:+ "version" +:+ Q +:+ ": " +:+ Q +:+ "\d+\.\d+\.\d+" +:+ Q +:+ ",")
    (Q +:+ "version" +:+ Q +:+ ": " +:+ Q +:+ version +:+ Q +:+ ",").

(** [os.path.join] of several parts. *)
Definition join_all (first : string) (rest : list string) : string :=
  foldl Path.join first rest.

(** The entry point, from the values of the argument [version] on.  The
    parser asks for at least one value. *)
Definition main (version : list string) : run unit :=
  match version with
  | [] => ([], inl Usage)
  | first :: _ =>
      if decide (length version ≠ 1) then
        ([], inl (RuntimeError
          "Invalid number of arguments given. Only one argument (the new version number) is expected."))
      else if decide (length (Str.split "." first) ≠ 3) then
        ([], inl (RuntimeError "The version number must be a three-part semantic version."))
      else
        update_cpp_file (join_all "cpp" ["include"; "loot"; "loot_version.h"]) first;;
        update_resource_file (join_all "cpp" ["src"; "api"; "resource.rc"]) first;;
        update_cmakelists (join_all "cpp" ["CMakeLists.txt"]) first;;
        update_cargo_toml "Cargo.toml" first;;
        update_cargo_toml (join_all "cpp" ["Cargo.toml"]) first;;
        update_cargo_toml (join_all "ffi-errors" ["Cargo.toml"]) first;;
        update_cargo_toml (join_all "nodejs" ["Cargo.toml"]) first;;
        update_cargo_toml (join_all "parameterized-test" ["Cargo.toml"]) first;;
        update_cargo_toml (join_all "python" ["Cargo.toml"]) first;;
        update_package_json (join_all "nodejs" ["package.json"]) first;;
        update_package_json (join_all "nodejs" ["npm"; "linux-x64-gnu"; "package.json"]) first;;
        update_package_json (join_all "nodejs" ["npm"; "win32-x64-msvc"; "package.json"]) first
  end.
















End SetVersion.




(** ** Edges the traversal passes over *)

(** The package with its followed edges only. *)
Definition runtime_package (p : Package.t) : Package.t :=
  Package.mk (Package.name p) (Package.version p) (Package.license p)
    (Package.manifest_path p)
    (filter (λ e, runtime_edge e = true) (Package.dependencies p)).

(** The graph without its [dev] and [build] edges and the edges limited to
    the platform left out. *)
Definition runtime_graph (packages : list Package.t) : list Package.t :=
  runtime_package <$> packages.

Section Runtime.
Variable packages : list Package.t.

Lemma elem_of_runtime_graph p' :
  p' ∈ runtime_graph packages ↔ ∃ p, p ∈ packages ∧ p' = runtime_package p.
Proof.
  unfold runtime_graph. rewrite list_elem_of_fmap. split.
  - intros (p & -> & Hp). eauto.
  - intros (p & Hp & ->). eauto.
Qed.

Lemma elem_of_runtime_dependencies p e :
  e ∈ Package.dependencies (runtime_package p)
  ↔ e ∈ Package.dependencies p ∧ runtime_edge e = true.
Proof. simpl. rewrite list_elem_of_filter. tauto. Qed.

Lemma depends_on_runtime p n :
  p ∈ packages →
  depends_on packages p n →
  depends_on (runtime_graph packages) (runtime_package p) n.
Proof.
  intros Hp Hd. induction Hd as [p e He Hr|p e q n He Hr Hq Hqn Hd IH].
  - apply depends_direct; [|assumption].
    apply elem_of_runtime_dependencies. auto.
  - apply depends_step with e (runtime_package q).
    + apply elem_of_runtime_dependencies. auto.
    + assumption.
    + apply elem_of_runtime_graph. eauto.
    + assumption.
    + apply IH; assumption.
Qed.

Lemma depends_on_all_edges p' n :
  depends_on (runtime_graph packages) p' n →
  ∀ p, p' = runtime_package p → depends_on packages p n.
Proof.
  intros Hd. induction Hd as [p' e He Hr|p' e q' n He Hr Hq Hqn Hd IH];
    intros p ->.
  - apply elem_of_runtime_dependencies in He as [He _].
    apply depends_direct; assumption.
  - apply elem_of_runtime_dependencies in He as [He _].
    apply elem_of_runtime_graph in Hq as (q & Hq & ->).
    apply depends_step with e q; auto.
Qed.

Lemma dependency_names_runtime package_name :
  dependency_names (runtime_graph packages) package_name
  = dependency_names packages package_name.
Proof.
  apply set_eq. intros n. rewrite !dependency_names_spec. split.
  - intros (p' & [Hp' Hname] & Hd).
    apply elem_of_runtime_graph in Hp' as (p & Hp & ->).
    exists p. split; [split; assumption|].
    eapply depends_on_all_edges; eauto.
  - intros (p & [Hp Hname] & Hd).
    exists (runtime_package p). split.
    + split; [apply elem_of_runtime_graph; eauto|assumption].
    + apply depends_on_runtime; assumption.
Qed.

End Runtime.

(** X3: the [dev] and [build] edges and the edges limited to the platform
    left out have no part in the result: the resolver returns the same
    records, in the same order, for the graph without them. *)
Theorem passed_over_edges_are_irrelevant (packages : list Package.t)
    (package_name : string) :
  get_package_dependencies (runtime_graph packages) package_name
  = get_package_dependencies packages package_name.
Proof.
  unfold get_package_dependencies.
  rewrite dependency_names_runtime. unfold runtime_graph.
  generalize (dependency_names packages package_name). intros names.
  induction packages as [|q l IH]; [reflexivity|].
  rewrite fmap_cons, !filter_cons.
  change (Package.name (runtime_package q)) with (Package.name q).
  destruct (decide (Package.name q ∈ names)).
  - rewrite !fmap_cons, IH. reflexivity.
  - exact IH.
Qed.
